(** * limitd: request pipeline, bucket accounting and daemon lifecycle

    A shallow embedding of [server.js] (the [LimitdServer] connection
    supervisor: [_handler], [start], [stop]) together with the bucket
    accounting contract the daemon serves. *)

From Stdlib Require Import ZArith QArith Qminmax List String Ascii Bool Lia Lqa.
From stdpp Require Import base option list gmap strings.
Import ListNotations.

Set Implicit Arguments.

(** ** Bucket engine *)

Module Bucket.

Local Open Scope Q_scope.

(** A configured class of counters.  [refillRate] is in quota units per
    unit of time (what [perInterval]/[perSecond] denote). *)
Record BucketTypeConfig := {
  name : string;
  size : Q;
  refillRate : Q;
  unlimited : bool
}.

Record BucketState := {
  remaining : Q;
  lastUpdateTimestamp : Q
}.

Inductive operation := TAKE | PUT | STATUS | PING.

Inductive engine_error := InvalidRequest.

(** The accounting part of a Response. *)
Record outcome := {
  conformant : bool;
  reported : Q;
  limit : Q
}.

Inductive result (A : Type) :=
| Ok (a : A)
| Error (e : engine_error).
Arguments Error {A} e.

(** Modelled from the spec: the state of a key that has never been seen
    is created with [remaining = size] (section 3). *)
Definition fresh (cfg : BucketTypeConfig) (now : Q) : BucketState :=
  {| remaining := size cfg; lastUpdateTimestamp := now |}.

(** Modelled from the spec: the refill step of the bucket engine (the
    engine lives in the store package, which is not part of the sources):
    [elapsed = now - lastUpdateTimestamp],
    [refilled = min(size, remaining + elapsed * refillRate)]. *)
Definition refill (cfg : BucketTypeConfig) (st : BucketState) (now : Q) : Q :=
  let elapsed := now - lastUpdateTimestamp st in
  Qmin (size cfg) (remaining st + elapsed * refillRate cfg).

Definition respond (cfg : BucketTypeConfig) (ok : bool) (r now : Q)
  : BucketState * outcome :=
  ({| remaining := r; lastUpdateTimestamp := now |},
   {| conformant := ok; reported := r; limit := size cfg |}).

(** Modelled from the spec: [evaluate(config, previousState, operation,
    count, now)] of the bucket engine, section 4.1.  PING bypasses the
    accounting; a negative count of a TAKE or PUT is an [InvalidRequest];
    an unlimited type answers conformant with [remaining = size] and
    leaves the stored state alone; otherwise the refill step is applied
    and then the operation. *)
Definition evaluate (cfg : BucketTypeConfig) (st : BucketState)
    (op : operation) (count : Z) (now : Q)
  : result (BucketState * outcome) :=
  let full := {| conformant := true; reported := size cfg; limit := size cfg |} in
  match op with
  | PING => Ok (st, full)
  | STATUS =>
      if unlimited cfg then Ok (st, full)
      else Ok (respond cfg true (refill cfg st now) now)
  | TAKE =>
      if (count <? 0)%Z then Error InvalidRequest
      else if unlimited cfg then Ok (st, full)
      else
        let refilled := refill cfg st now in
        if Qle_bool (inject_Z count) refilled
        then Ok (respond cfg true (refilled - inject_Z count) now)
        else Ok (respond cfg false refilled now)
  | PUT =>
      if (count <? 0)%Z then Error InvalidRequest
      else if unlimited cfg then Ok (st, full)
      else
        let refilled := refill cfg st now in
        Ok (respond cfg true (Qmin (size cfg) (refilled + inject_Z count)) now)
  end.

(** One request against a key: operation, count and the instant of
    evaluation. *)
Definition call : Type := operation * Z * Q.

(** Modelled from the spec: the store keeps the state the engine returns
    (section 4.4); a request the engine rejects leaves the stored state as
    it was. *)
Definition apply_call (cfg : BucketTypeConfig) (st : BucketState) (c : call)
  : BucketState :=
  match c with
  | (op, count, now) =>
      match evaluate cfg st op count now with
      | Ok (st', _) => st'
      | Error _ => st
      end
  end.

(** The stored state after each call of a sequence, in order. *)
Fixpoint states_after (cfg : BucketTypeConfig) (st : BucketState)
    (cs : list call) : list BucketState :=
  match cs with
  | [] => []
  | c :: cs' =>
      let st' := apply_call cfg st c in
      st' :: states_after cfg st' cs'
  end.

(** Calls arrive in time order, none before instant [t]. *)
Fixpoint chronological (t : Q) (cs : list call) : Prop :=
  match cs with
  | [] => True
  | (_, _, now) :: cs' => t <= now /\ chronological now cs'
  end.

Definition in_range (cfg : BucketTypeConfig) (st : BucketState) : Prop :=
  0 <= remaining st /\ remaining st <= size cfg.

End Bucket.

(** ** JavaScript strings *)

Module JsString.

(** [s.indexOf(search)]: the index of the first occurrence of [search] in
    [s], or -1 when there is none. *)
Fixpoint indexOf_from (i : Z) (s search : string) : Z :=
  if String.prefix search s then i
  else match s with
       | EmptyString => (-1)%Z
       | String _ s' => indexOf_from (i + 1)%Z s' search
       end.

Definition indexOf (s search : string) : Z := indexOf_from 0%Z s search.

(** [search] occurs somewhere in [s]. *)
Definition includes (s search : string) : Prop :=
  exists pre post, s = String.append pre (String.append search post).

End JsString.

(** ** The daemon: [LimitdServer] *)

Module Server.

Inductive level := Debug | Info | Error.

(** JavaScript [Error] values: an ordinary error with its message, or the
    [TimeoutError] the [cb] wrapper passes when its timer fires. *)
Inductive error :=
| Failure (msg : string)
| TimeoutError (ms : nat).

Definition message (e : error) : string :=
  match e with
  | Failure m => m
  | TimeoutError _ => "Specified timeout was reached"
  end.

(** [hostname, port] of the listener, and [remoteAddress, remotePort] of
    a socket (the [sockets_details] every connection log line carries). *)
Abbreviation address := (string * Z)%type.
Abbreviation peer := (string * Z)%type.

(** Callbacks handed in by the caller ([done], [callback]) are named. *)
Abbreviation callback := nat.

(** [a || b] on values that are either an error object or null/undefined. *)
Definition js_or (a b : option error) : option error :=
  match a with
  | Some e => Some e
  | None => b
  end.

(** Events the daemon emits to its subscribers. *)
Inductive signal :=
| started (a : address)
| error_signal (e : error)
| close.

(** What the daemon does to the outside world, in the order it does it.
    [Uncaught e] is an ['error'] emitted on a stream that has no listener
    for it: [emit] throws [e], and what becomes of the exception is up to
    the process, not to [server.js]. *)
Inductive action :=
| Log (l : level) (text : string) (err : option error)
| Listen (port : Z) (hostname : string)
| Emit (s : signal)
| Done (k : callback) (err : option error) (a : option address)
| Destroy
| CloseDb
| Complete (k : option callback) (err : option error)
| Uncaught (e : error).

(** Who acted: the daemon itself, the pipeline of one socket, or the
    [n]-th call of [stop]. *)
Inductive origin :=
| Daemon
| Conn (p : peer)
| Stopping (n : nat).

Abbreviation entry := (origin * action)%type.

Record config := {
  port : Z;
  hostname : string
}.

Definition defaults : config := {| port := 9231; hostname := "0.0.0.0" |}.

(** *** The [cb] wrapper: [cb(f).timeout(ms).once()]

    The wrapper of the [cb] package counts its calls, holds the timer set
    by [timeout] and the flags [once] and [timedout].  The package defers
    the wrapped function to the next tick; here it runs at once. *)

Record guard := {
  count : nat;
  once : bool;
  timedout : bool;
  tid : option nat          (* deadline of the armed timer *)
}.

Definition cb_timeout_once (now ms : nat) : guard :=
  {| count := 0; once := true; timedout := false; tid := Some (now + ms) |}.

(** A call of the wrapper: ignored after a timeout, or after a first call
    when [once] is set; otherwise counted, the timer cleared and the
    wrapped function invoked (the boolean). *)
Definition cb_call (g : guard) : guard * bool :=
  if timedout g || (once g && negb (count g =? 0))
  then (g, false)
  else ({| count := S (count g); once := once g; timedout := timedout g;
           tid := None |}, true).

(** The timer fires: the wrapper is called with a [TimeoutError] and the
    wrapper is marked timed out. *)
Definition cb_timer (g : guard) : guard * bool :=
  let (g', invoked) := cb_call g in
  ({| count := count g'; once := once g'; timedout := true; tid := None |},
   invoked).

(** *** One call of [stop] *)

Inductive phase :=
| Closing_server
| Closing_db (serverCloseError : option error)
| Closed.

Record stopping := {
  user_callback : option callback;
  stage : phase;
  wrapper : guard
}.

Section Pipeline.

(** The pipeline stages: frames of the length-prefixed stream carry a
    [payload]; [RequestDecoder], [RequestHandler] and [ResponseEncoder] are
    the three stages wired by [_handler]. *)
Variables payload request response store : Type.

Inductive parsed :=
| Request (r : request)
| Malformed (e : error).

(** What the handler does with one request: it may push a response and it
    may emit ['error']. *)
Record handling := {
  reply : option response;
  raised : option error
}.

Variable decode : payload -> parsed.
Variable handle : store -> request -> store * handling.
Variable encode : response -> payload.

(** *** One connection

    The stages are piped into each other; each takes its input in the
    order it arrived, one chunk at a time, and what it produces waits in
    order for the next stage.

    [a.pipe(b)] also puts a listener of its own on [b]'s ['error'], ahead
    of the listeners of [_handler]: at [b]'s first ['error'] it unpipes
    [a] from [b] and removes itself, so from then on [b] is fed nothing.
    The chunks that were waiting for [b] stay where they are for good;
    the queues below hold what a stage will still take, so unpiping
    empties the queue in front of the stage, and what arrives for an
    unpiped stage is not queued. *)

Record conn := {
  inbound : list payload;     (* frames out of [lps.decode()], oldest first *)
  decoded : list request;     (* between decoder and request handler *)
  answered : list response;   (* between request handler and encoder *)
  encoded : list payload;     (* between encoder and the socket *)
  written : list payload;     (* frames written to the socket *)
  ended : bool;               (* [socket.end()] was called *)
  destroyed : bool;           (* [socket.destroy()] was called *)
  decoder_piped : bool;       (* [lps.decode()] is still piped into the decoder *)
  handler_armed : bool;       (* the [once('error')] listener is still on; it
                                 and the listener [pipe] put on the request
                                 handler go at the same ['error'], so this is
                                 also: the decoder is still piped into the
                                 request handler *)
  received : list payload;    (* history: every frame received *)
  handled : list (request * handling)   (* history: every request handled *)
}.

Definition accepted : conn :=
  {| inbound := []; decoded := []; answered := []; encoded := [];
     written := []; ended := false; destroyed := false;
     decoder_piped := true; handler_armed := true;
     received := []; handled := [] |}.

Definition socket_end (c : conn) : conn :=
  {| inbound := inbound c; decoded := decoded c; answered := answered c;
     encoded := encoded c; written := written c; ended := true;
     destroyed := destroyed c; decoder_piped := decoder_piped c;
     handler_armed := handler_armed c;
     received := received c; handled := handled c |}.

Definition socket_destroy (c : conn) : conn :=
  {| inbound := inbound c; decoded := decoded c; answered := answered c;
     encoded := encoded c; written := written c; ended := ended c;
     destroyed := true; decoder_piped := decoder_piped c;
     handler_armed := handler_armed c;
     received := received c; handled := handled c |}.

Definition disarm (c : conn) : conn :=
  {| inbound := inbound c; decoded := decoded c; answered := answered c;
     encoded := encoded c; written := written c; ended := ended c;
     destroyed := destroyed c; decoder_piped := decoder_piped c;
     handler_armed := false;
     received := received c; handled := handled c |}.

(** The listener of [lps.decode().pipe(decoder)] on the decoder's
    ['error']: the decoder is fed no frame any more. *)
Definition unpipe_decoder (c : conn) : conn :=
  {| inbound := []; decoded := decoded c; answered := answered c;
     encoded := encoded c; written := written c; ended := ended c;
     destroyed := destroyed c; decoder_piped := false;
     handler_armed := handler_armed c;
     received := received c; handled := handled c |}.

(** The listener of [decoder.pipe(request_handler)] on the request
    handler's ['error']: the handler is fed no request any more. *)
Definition unpipe_handler (c : conn) : conn :=
  {| inbound := inbound c; decoded := []; answered := answered c;
     encoded := encoded c; written := written c; ended := ended c;
     destroyed := destroyed c; decoder_piped := decoder_piped c;
     handler_armed := handler_armed c;
     received := received c; handled := handled c |}.

Definition pipeline_error_text : string :=
  "Error detected in the request pipeline.".

(** [decoder.on('error', ...)]: log at error level and end the socket. *)
Definition decoder_on_error (c : conn) (err : error) : conn * list action :=
  (socket_end c, [Log Error pipeline_error_text (Some err)]).

(** The decoder emits ['error']: the listener of [pipe] runs first, then
    the listener of [_handler], which stays on. *)
Definition decoder_emits_error (c : conn) (err : error)
  : conn * list action :=
  decoder_on_error (unpipe_decoder c) err.

(** [critical] of the [request_handler.once('error', ...)] listener. *)
Definition critical (err : error) : bool :=
  (JsString.indexOf (message err) "undefined bucket type" =? -1)%Z.

(** The body of the [request_handler.once('error', ...)] listener: it logs
    at error or info level and ends the socket when the error is
    critical. *)
Definition request_handler_once_error (c : conn) (err : error)
  : conn * list action :=
  (if critical err then socket_end c else c,
   [Log (if critical err then Error else Info) pipeline_error_text (Some err)]).

(** The request handler emits ['error'].  The first time, the listener of
    [pipe] unpipes the decoder and the one-shot listener of [_handler]
    runs; both are gone afterwards, and an ['error'] emitted with no
    listener left is thrown by [emit]. *)
Definition request_handler_emits_error (c : conn) (err : error)
  : conn * list action :=
  if handler_armed c
  then request_handler_once_error (disarm (unpipe_handler c)) err
  else (c, [Uncaught err]).

(** A frame arrives on the socket; [lps.decode()] passes it on to the
    decoder while it is piped into it. *)
Definition receive (c : conn) (f : payload) : conn :=
  if destroyed c then c else
  {| inbound := if decoder_piped c then inbound c ++ [f] else inbound c;
     decoded := decoded c; answered := answered c;
     encoded := encoded c; written := written c; ended := ended c;
     destroyed := destroyed c; decoder_piped := decoder_piped c;
     handler_armed := handler_armed c;
     received := received c ++ [f]; handled := handled c |}.

(** The decoder takes the oldest frame; the request it yields goes to the
    request handler while the decoder is piped into it. *)
Definition decode_step (c : conn) : conn * list action :=
  match inbound c with
  | [] => (c, [])
  | f :: rest =>
      let c' :=
        {| inbound := rest; decoded := decoded c; answered := answered c;
           encoded := encoded c; written := written c; ended := ended c;
           destroyed := destroyed c; decoder_piped := decoder_piped c;
           handler_armed := handler_armed c;
           received := received c; handled := handled c |} in
      match decode f with
      | Request r =>
          ({| inbound := rest;
              decoded := if handler_armed c then decoded c ++ [r]
                         else decoded c;
              answered := answered c;
              encoded := encoded c; written := written c; ended := ended c;
              destroyed := destroyed c; decoder_piped := decoder_piped c;
              handler_armed := handler_armed c;
              received := received c; handled := handled c |}, [])
      | Malformed e => decoder_emits_error c' e
      end
  end.

(** The request handler takes the oldest decoded request and runs it
    against the shared store. *)
Definition handle_step (db : store) (c : conn) : store * conn * list action :=
  match decoded c with
  | [] => (db, c, [])
  | r :: rest =>
      let (db', h) := handle db r in
      let c' :=
        {| inbound := inbound c; decoded := rest;
           answered := match reply h with
                       | Some a => answered c ++ [a]
                       | None => answered c
                       end;
           encoded := encoded c; written := written c; ended := ended c;
           destroyed := destroyed c; decoder_piped := decoder_piped c;
           handler_armed := handler_armed c;
           received := received c; handled := handled c ++ [(r, h)] |} in
      match raised h with
      | Some e => let (c'', acts) := request_handler_emits_error c' e in
                  (db', c'', acts)
      | None => (db', c', [])
      end
  end.

(** The encoder takes the oldest response. *)
Definition encode_step (c : conn) : conn :=
  match answered c with
  | [] => c
  | a :: rest =>
      {| inbound := inbound c; decoded := decoded c; answered := rest;
         encoded := encoded c ++ [encode a]; written := written c;
         ended := ended c; destroyed := destroyed c;
         decoder_piped := decoder_piped c;
         handler_armed := handler_armed c;
         received := received c; handled := handled c |}
  end.

(** The oldest encoded frame is written to the socket, unless the socket
    was ended or destroyed. *)
Definition write_step (c : conn) : conn :=
  match encoded c with
  | [] => c
  | f :: rest =>
      if ended c || destroyed c then c else
      {| inbound := inbound c; decoded := decoded c; answered := answered c;
         encoded := rest; written := written c ++ [f];
         ended := ended c; destroyed := destroyed c;
         decoder_piped := decoder_piped c;
         handler_armed := handler_armed c;
         received := received c; handled := handled c |}
  end.

(** *** The daemon *)

Record daemon := {
  settings : config;                       (* [this._config] *)
  db : store;                              (* contents of [this._db] *)
  db_open : bool;                          (* [this._db.isOpen()] *)
  ready_once : list (option callback);     (* [once('ready')] listeners: the [done] of each parked [start] *)
  listens : list (option callback);        (* [listen] calls whose callback has not run yet *)
  server_address : option address;         (* [this._server.address()] *)
  accepting : bool;                        (* the listener accepts connections *)
  sockets : gmap peer conn;                (* the connections, by remote address and port *)
  stops : list stopping;                   (* the calls of [stop], oldest first *)
  clock : nat;                             (* milliseconds *)
  trace : list entry                       (* what the daemon did, oldest first *)
}.

Definition set_db (d : daemon) (v : store) : daemon :=
  {| settings := settings d;
     db := v;
     db_open := db_open d;
     ready_once := ready_once d;
     listens := listens d;
     server_address := server_address d;
     accepting := accepting d;
     sockets := sockets d;
     stops := stops d;
     clock := clock d;
     trace := trace d |}.

Definition set_db_open (d : daemon) (v : bool) : daemon :=
  {| settings := settings d;
     db := db d;
     db_open := v;
     ready_once := ready_once d;
     listens := listens d;
     server_address := server_address d;
     accepting := accepting d;
     sockets := sockets d;
     stops := stops d;
     clock := clock d;
     trace := trace d |}.

Definition set_ready_once (d : daemon) (v : list (option callback)) : daemon :=
  {| settings := settings d;
     db := db d;
     db_open := db_open d;
     ready_once := v;
     listens := listens d;
     server_address := server_address d;
     accepting := accepting d;
     sockets := sockets d;
     stops := stops d;
     clock := clock d;
     trace := trace d |}.

Definition set_listens (d : daemon) (v : list (option callback)) : daemon :=
  {| settings := settings d;
     db := db d;
     db_open := db_open d;
     ready_once := ready_once d;
     listens := v;
     server_address := server_address d;
     accepting := accepting d;
     sockets := sockets d;
     stops := stops d;
     clock := clock d;
     trace := trace d |}.

Definition set_server_address (d : daemon) (v : option address) : daemon :=
  {| settings := settings d;
     db := db d;
     db_open := db_open d;
     ready_once := ready_once d;
     listens := listens d;
     server_address := v;
     accepting := accepting d;
     sockets := sockets d;
     stops := stops d;
     clock := clock d;
     trace := trace d |}.

Definition set_accepting (d : daemon) (v : bool) : daemon :=
  {| settings := settings d;
     db := db d;
     db_open := db_open d;
     ready_once := ready_once d;
     listens := listens d;
     server_address := server_address d;
     accepting := v;
     sockets := sockets d;
     stops := stops d;
     clock := clock d;
     trace := trace d |}.

Definition set_sockets (d : daemon) (v : gmap peer conn) : daemon :=
  {| settings := settings d;
     db := db d;
     db_open := db_open d;
     ready_once := ready_once d;
     listens := listens d;
     server_address := server_address d;
     accepting := accepting d;
     sockets := v;
     stops := stops d;
     clock := clock d;
     trace := trace d |}.

Definition set_stops (d : daemon) (v : list stopping) : daemon :=
  {| settings := settings d;
     db := db d;
     db_open := db_open d;
     ready_once := ready_once d;
     listens := listens d;
     server_address := server_address d;
     accepting := accepting d;
     sockets := sockets d;
     stops := v;
     clock := clock d;
     trace := trace d |}.

Definition set_clock (d : daemon) (v : nat) : daemon :=
  {| settings := settings d;
     db := db d;
     db_open := db_open d;
     ready_once := ready_once d;
     listens := listens d;
     server_address := server_address d;
     accepting := accepting d;
     sockets := sockets d;
     stops := stops d;
     clock := v;
     trace := trace d |}.

Definition set_trace (d : daemon) (v : list entry) : daemon :=
  {| settings := settings d;
     db := db d;
     db_open := db_open d;
     ready_once := ready_once d;
     listens := listens d;
     server_address := server_address d;
     accepting := accepting d;
     sockets := sockets d;
     stops := stops d;
     clock := clock d;
     trace := v |}.

Definition act (d : daemon) (who : origin) (acts : list action) : daemon :=
  set_trace d (trace d ++ map (pair who) acts).

(** [new LimitdServer(options)] over a store that is still opening. *)
Definition LimitdServer (options : config) (s : store) : daemon :=
  {| settings := options; db := s; db_open := false; ready_once := [];
     listens := []; server_address := None; accepting := false;
     sockets := ∅; stops := []; clock := 0; trace := [] |}.

(** [start(done)]: while the store is not open, park a one-shot ['ready']
    listener that runs [start(done)] again; otherwise ask the server to
    listen. *)
Definition start (d : daemon) (done : option callback) : daemon :=
  if negb (db_open d) then set_ready_once d (ready_once d ++ [done])
  else
    act (set_listens d (listens d ++ [done])) Daemon
        [Listen (port (settings d)) (hostname (settings d))].

(** The store emits ['ready']: the constructor's listener logs, then the
    parked one-shot listeners run in the order they were added. *)
Definition db_ready (d : daemon) : daemon :=
  let d1 := act (set_db_open d true) Daemon [Log Info "Database ready." None] in
  fold_left start (ready_once d1) (set_ready_once d1 []).

(** The callback given to [listen] runs for the oldest pending call. *)
Definition listen_callback (d : daemon) (res : error + address) : daemon :=
  match listens d with
  | [] => d
  | done :: rest =>
      let d1 := set_listens d rest in
      match res with
      | inl err =>
          act d1 Daemon
              ([Log Error "error starting server" (Some err);
                Emit (error_signal err)] ++
               match done with
               | Some k => [Done k (Some err) None]
               | None => []
               end)
      | inr a =>
          act (set_accepting (set_server_address d1 (Some a)) true) Daemon
              ([Log Info "server started" None; Emit (started a)] ++
               match done with
               | Some k => [Done k None (Some a)]
               | None => []
               end)
      end
  end.

(** [_handler(socket)]: a new connection gets its own pipeline. *)
Definition _handler (d : daemon) (p : peer) : daemon :=
  act (set_sockets d (<[p := accepted]> (sockets d))) (Conn p)
      [Log Debug "connection accepted" None].

Definition on_socket (d : daemon) (p : peer)
    (f : conn -> conn * list action) : daemon :=
  match sockets d !! p with
  | Some c =>
      let (c', acts) := f c in
      act (set_sockets d (<[p := c']> (sockets d))) (Conn p) acts
  | None => d
  end.

Definition on_handle (d : daemon) (p : peer) : daemon :=
  match sockets d !! p with
  | Some c =>
      match handle_step (db d) c with
      | (db', c', acts) =>
          act (set_sockets (set_db d db') (<[p := c']> (sockets d))) (Conn p) acts
      end
  | None => d
  end.

Definition stop_timeout : nat := 5000.

(** [stop(callback)]: wrap the callback, log, and destroy the server.
    [destroy] is the method [server-destroy] adds to the server: it closes
    the listener and destroys every open socket. *)
Definition stop (d : daemon) (k : option callback) : daemon :=
  let n := length (stops d) in
  let s := {| user_callback := k; stage := Closing_server;
              wrapper := cb_timeout_once (clock d) stop_timeout |} in
  act (set_sockets (set_accepting (set_stops d (stops d ++ [s])) false)
                   (socket_destroy <$> sockets d))
      (Stopping n) [Log Debug "closing server" None; Destroy].

Definition set_stage (s : stopping) (ph : phase) (g : guard) : stopping :=
  {| user_callback := user_callback s; stage := ph; wrapper := g |}.

(** The callback given to [this._server.destroy]. *)
Definition destroy_callback (d : daemon) (n : nat)
    (serverCloseError : option error) : daemon :=
  match stops d !! n with
  | Some s =>
      match stage s with
      | Closing_server =>
          act (set_stops d
                 (<[n := set_stage s (Closing_db serverCloseError) (wrapper s)]>
                    (stops d)))
              (Stopping n)
              [match serverCloseError with
               | Some e => Log Error "error closing the tcp server" (Some e)
               | None => Log Debug "server closed" None
               end; CloseDb]
      | _ => d
      end
  | None => d
  end.

(** The callback given to [this._db.close]. *)
Definition close_callback (d : daemon) (n : nat)
    (dbCloseError : option error) : daemon :=
  match stops d !! n with
  | Some s =>
      match stage s with
      | Closing_db serverCloseError =>
          let (g, invoked) := cb_call (wrapper s) in
          let d1 := match dbCloseError with
                    | Some _ => d
                    | None => set_db_open d false
                    end in
          act (set_stops d1 (<[n := set_stage s Closed g]> (stops d)))
              (Stopping n)
              ([match dbCloseError with
                | Some e => Log Error "error closing the database" (Some e)
                | None => Log Debug "database closed" None
                end; Emit close] ++
               if invoked
               then [Complete (user_callback s)
                              (js_or serverCloseError dbCloseError)]
               else [])
      | _ => d
      end
  | None => d
  end.

(** The timer of one [stop] call fires once its deadline is reached. *)
Definition fire_timer (now n : nat) (s : stopping) : stopping * list entry :=
  match tid (wrapper s) with
  | Some t =>
      if t <=? now then
        let (g, invoked) := cb_timer (wrapper s) in
        (set_stage s (stage s) g,
         if invoked
         then [(Stopping n,
                Complete (user_callback s) (Some (TimeoutError stop_timeout)))]
         else [])
      else (s, [])
  | None => (s, [])
  end.

Fixpoint fire_timers (now n : nat) (ss : list stopping)
  : list stopping * list entry :=
  match ss with
  | [] => ([], [])
  | s :: rest =>
      let (s', a) := fire_timer now n s in
      let (rest', b) := fire_timers now (S n) rest in
      (s' :: rest', a ++ b)
  end.

Definition elapse (d : daemon) (ms : nat) : daemon :=
  let now := clock d + ms in
  let (ss, acts) := fire_timers now 0 (stops d) in
  set_trace (set_stops (set_clock d now) ss) (trace d ++ acts).

(** What can happen to the daemon. *)
Inductive event :=
| Start (done : option callback)
| DbReady
| DbRepairing
| DbError (e : error)
| ServerError (e : error)
| Listened (res : error + address)
| Accept (p : peer)
| Receive (p : peer) (f : payload)
| DecodeStep (p : peer)
| HandleStep (p : peer)
| EncodeStep (p : peer)
| WriteStep (p : peer)
| SocketError (p : peer) (e : error)
| SocketClosed (p : peer)
| Stop (k : option callback)
| ServerDestroyed (n : nat) (err : option error)
| DbClosed (n : nat) (err : option error)
| Elapse (ms : nat).

Definition step (d : daemon) (ev : event) : daemon :=
  match ev with
  | Start done => start d done
  | DbReady => db_ready d
  | DbRepairing => act d Daemon [Log Info "Repairing database." None]
  | DbError e => act d Daemon [Emit (error_signal e)]
  | ServerError e => act d Daemon [Emit (error_signal e)]
  | Listened res => listen_callback d res
  | Accept p =>
      if accepting d then
        match sockets d !! p with
        | None => _handler d p
        | Some _ => d
        end
      else d
  | Receive p f => on_socket d p (fun c => (receive c f, []))
  | DecodeStep p => on_socket d p decode_step
  | HandleStep p => on_handle d p
  | EncodeStep p => on_socket d p (fun c => (encode_step c, []))
  | WriteStep p => on_socket d p (fun c => (write_step c, []))
  | SocketError p e =>
      on_socket d p (fun c => (c, [Log Debug "connection error" (Some e)]))
  | SocketClosed p =>
      on_socket d p (fun c => (c, [Log Debug "connection closed" None]))
  | Stop k => stop d k
  | ServerDestroyed n err => destroy_callback d n err
  | DbClosed n err => close_callback d n err
  | Elapse ms => elapse d ms
  end.

Definition run (d : daemon) (evs : list event) : daemon :=
  fold_left step evs d.

End Pipeline.

Arguments Request {request} r.
Arguments Malformed {request} e.
Arguments accepted {payload request response}.
Arguments Start {payload}.
Arguments DbReady {payload}.
Arguments DbRepairing {payload}.
Arguments DbError {payload}.
Arguments ServerError {payload}.
Arguments Listened {payload}.
Arguments Accept {payload}.
Arguments Receive {payload}.
Arguments DecodeStep {payload}.
Arguments HandleStep {payload}.
Arguments EncodeStep {payload}.
Arguments WriteStep {payload}.
Arguments SocketError {payload}.
Arguments SocketClosed {payload}.
Arguments Stop {payload}.
Arguments ServerDestroyed {payload}.
Arguments DbClosed {payload}.
Arguments Elapse {payload}.

End Server.

(** ** A small pipeline to run the daemon on

    The wire format and the three stage classes are not fixed by
    [server.js]; the examples below run the daemon with these stages. *)

Module Script.
Import Server.

Inductive req :=
| take (bucket : string)
| ping
| crash.

Inductive frame :=
| Garbage
| Ask (r : req)
| Answer (conformant : bool) (remaining : nat).

(** One bucket type, ["ip"], whose remaining tokens are the store. *)
Definition decode (f : frame) : parsed req :=
  match f with
  | Ask r => Request r
  | _ => Malformed (Failure "unexpected frame")
  end.

Definition handle (tokens : nat) (r : req) : nat * handling (bool * nat) :=
  match r with
  | ping => (tokens, {| reply := Some (true, tokens); raised := None |})
  | take b =>
      if String.eqb b "ip" then
        match tokens with
        | O => (tokens, {| reply := Some (false, 0); raised := None |})
        | S n => (n, {| reply := Some (true, n); raised := None |})
        end
      else (tokens, {| reply := None;
                       raised := Some (Failure (String.append "undefined bucket type " b)) |})
  | crash => (tokens, {| reply := None;
                         raised := Some (Failure "Database is not open") |})
  end.

Definition encode (a : bool * nat) : frame := Answer (fst a) (snd a).

Abbreviation daemon0 := (@LimitdServer frame req (bool * nat) nat defaults 3).

Abbreviation go evs := (run decode handle encode daemon0 evs).

Definition client : peer := ("10.0.0.7", 40100%Z).
Definition other_client : peer := ("10.0.0.8", 40200%Z).
Definition bound : address := ("0.0.0.0", 9231%Z).

End Script.

(** ** Properties of the bucket engine *)

Module BucketProps.
Import Bucket.
Local Open Scope Q_scope.

Lemma refill_le_size cfg st now : refill cfg st now <= size cfg.
Proof. unfold refill. apply Q.le_min_l. Qed.

Lemma refill_nonneg cfg st now :
  0 <= size cfg -> 0 <= refillRate cfg -> 0 <= remaining st ->
  lastUpdateTimestamp st <= now ->
  0 <= refill cfg st now.
Proof.
  intros Hs Hr Hrem Ht. unfold refill. apply Q.min_glb; [exact Hs|].
  assert (He : 0 <= now - lastUpdateTimestamp st) by lra.
  pose proof (Qmult_le_0_compat _ _ He Hr) as Hm. lra.
Qed.

Lemma inject_Z_nonneg (count : Z) : (0 <= count)%Z -> 0 <= inject_Z count.
Proof.
  intros H. change 0 with (inject_Z 0). rewrite <- Zle_Qle. exact H.
Qed.

(** A call at or after the state's last update keeps [remaining] within
    [0, size] and does not move the last update past the call. *)
Lemma apply_call_in_range cfg st op count now :
  0 <= size cfg -> 0 <= refillRate cfg ->
  in_range cfg st -> lastUpdateTimestamp st <= now ->
  in_range cfg (apply_call cfg st (op, count, now)) /\
  lastUpdateTimestamp (apply_call cfg st (op, count, now)) <= now.
Proof.
  intros Hs Hr [Hlo Hhi] Ht.
  pose proof (refill_le_size cfg st now) as Hle.
  pose proof (refill_nonneg cfg st Hs Hr Hlo Ht) as Hge.
  unfold apply_call, evaluate, in_range.
  destruct op.
  - (* TAKE *)
    destruct (Z.ltb_spec count 0) as [Hneg|Hpos]; [auto|].
    destruct (unlimited cfg); [auto|].
    pose proof (inject_Z_nonneg Hpos) as Hc.
    destruct (Qle_bool (inject_Z count) (refill cfg st now)) eqn:Hb; simpl.
    + apply Qle_bool_iff in Hb. repeat split; lra.
    + repeat split; lra.
  - (* PUT *)
    destruct (Z.ltb_spec count 0) as [Hneg|Hpos]; [auto|].
    destruct (unlimited cfg); [auto|].
    pose proof (inject_Z_nonneg Hpos) as Hc. simpl.
    repeat split; [ apply Q.min_glb; lra | apply Q.le_min_l | lra ].
  - (* STATUS *)
    destruct (unlimited cfg); [auto|]. simpl. repeat split; lra.
  - (* PING *)
    auto.
Qed.

Lemma states_after_in_range cfg cs : forall st t,
  0 <= size cfg -> 0 <= refillRate cfg ->
  in_range cfg st -> lastUpdateTimestamp st <= t ->
  chronological t cs ->
  Forall (in_range cfg) (states_after cfg st cs).
Proof.
  induction cs as [|[[op count] now] cs IH]; intros st t Hs Hr Hin Ht Hc; simpl.
  - constructor.
  - destruct Hc as [Htn Hc].
    assert (Hlast : lastUpdateTimestamp st <= now) by lra.
    destruct (apply_call_in_range op count Hs Hr Hin Hlast) as [Hin' Ht'].
    constructor; [exact Hin'|].
    apply IH with (t := now); assumption.
Qed.

(** The scenario of the specification: a bucket type of size 10 refilled
    at one unit per second. *)
Definition ten_per_second : BucketTypeConfig :=
  {| name := "ip"; size := 10; refillRate := 1; unlimited := false |}.

Definition unlimited_ten : BucketTypeConfig :=
  {| name := "vip"; size := 10; refillRate := 1; unlimited := true |}.

Example scenario_take_take_status :
  let s0 := fresh ten_per_second 0 in
  let s1 := apply_call ten_per_second s0 (TAKE, 5%Z, 0) in
  let s2 := apply_call ten_per_second s1 (TAKE, 6%Z, 0) in
  let s3 := apply_call ten_per_second s2 (STATUS, 1%Z, 5) in
  remaining s1 == 5 /\ remaining s2 == 5 /\ remaining s3 == 10.
Proof. vm_compute. intuition congruence. Qed.

(** C1, as stated, fails on an unlimited bucket type: a TAKE of 20 from a
    bucket of size 10 is conformant although the refilled remaining (10)
    is below the count, and the remaining is not reduced by the count.
    It also fails for a negative count: the refilled remaining is above
    the count, and the TAKE is rejected as an invalid request. *)
Lemma take_unlimited_counterexample :
  let st := fresh unlimited_ten 0 in
  (exists st' out,
     evaluate unlimited_ten st TAKE 20 0 = Ok (st', out) /\
     conformant out = true /\
     ~ inject_Z 20 <= refill unlimited_ten st 0 /\
     ~ remaining st' == refill unlimited_ten st 0 - inject_Z 20) /\
  (evaluate ten_per_second (fresh ten_per_second 0) TAKE (-1) 0 =
     Error InvalidRequest /\
   inject_Z (-1) <= refill ten_per_second (fresh ten_per_second 0) 0).
Proof.
  split.
  - eexists _, _. split; [reflexivity|]. split; [reflexivity|].
    split; intros H; vm_compute in H; [apply H; reflexivity | discriminate H].
  - split; [reflexivity|]. vm_compute. discriminate.
Qed.

(** C1 (amended): for every bucket configuration, every bucket state and
    every non-negative count, a TAKE is answered.  If the type is not
    unlimited, it is conformant if and only if the post-refill remaining
    is at least the count; on success the new remaining is the post-refill
    remaining minus exactly the count, on failure it is the post-refill
    remaining itself (nothing is consumed).  If the type is unlimited,
    the TAKE is conformant, reports a remaining equal to the size and
    leaves the stored state as it was. *)
Theorem take_conformant_iff cfg st count now :
  (0 <= count)%Z ->
  (unlimited cfg = false ->
   exists st' out,
     evaluate cfg st TAKE count now = Ok (st', out) /\
     (conformant out = true <-> inject_Z count <= refill cfg st now) /\
     (conformant out = true ->
        remaining st' = refill cfg st now - inject_Z count) /\
     (conformant out = false -> remaining st' = refill cfg st now)) /\
  (unlimited cfg = true ->
   evaluate cfg st TAKE count now =
   Ok (st, {| conformant := true; reported := size cfg; limit := size cfg |})).
Proof.
  intros Hc. unfold evaluate.
  destruct (Z.ltb_spec count 0) as [Hneg|_]; [lia|].
  split; intros Hu; rewrite Hu; [|reflexivity].
  destruct (Qle_bool (inject_Z count) (refill cfg st now)) eqn:Hb;
    eexists _, _; (split; [reflexivity|]); simpl.
  - apply Qle_bool_iff in Hb. repeat split; auto; discriminate.
  - repeat split; auto; try discriminate.
    intros H. apply Qle_bool_iff in H. congruence.
Qed.

Lemma take_conformant_iff_witness :
  (0 <= 5)%Z /\
  ((unlimited ten_per_second = false ->
    exists st' out,
      evaluate ten_per_second (fresh ten_per_second 0) TAKE 5 0 =
        Ok (st', out) /\
      (conformant out = true <->
         inject_Z 5 <= refill ten_per_second (fresh ten_per_second 0) 0) /\
      (conformant out = true ->
         remaining st' =
         refill ten_per_second (fresh ten_per_second 0) 0 - inject_Z 5) /\
      (conformant out = false ->
         remaining st' = refill ten_per_second (fresh ten_per_second 0) 0)) /\
   (unlimited ten_per_second = true ->
    evaluate ten_per_second (fresh ten_per_second 0) TAKE 5 0 =
    Ok (fresh ten_per_second 0,
        {| conformant := true; reported := size ten_per_second;
           limit := size ten_per_second |}))).
Proof.
  split; [lia|].
  apply (@take_conformant_iff ten_per_second (fresh ten_per_second 0) 5%Z 0).
  lia.
Defined.

(** The two cases of C1 on the scenario's bucket types. *)
Example take_five_of_ten :
  (exists st' out,
     evaluate ten_per_second (fresh ten_per_second 0) TAKE 5 0 =
       Ok (st', out) /\
     conformant out = true /\ remaining st' == 5) /\
  evaluate unlimited_ten (fresh unlimited_ten 0) TAKE 5 0 =
    Ok (fresh unlimited_ten 0,
        {| conformant := true; reported := 10; limit := 10 |}).
Proof.
  split; [|reflexivity].
  eexists _, _. split; [reflexivity|]. split; [reflexivity|].
  vm_compute. reflexivity.
Qed.

(** C2: for a bucket type of size S (S and the refill rate non-negative)
    and a state with 0 <= remaining <= S, after every operation of every
    sequence of TAKE/PUT/STATUS (and PING) calls issued in time order the
    stored remaining again satisfies 0 <= remaining <= S. *)
Theorem remaining_within_bounds cfg st cs :
  0 <= size cfg -> 0 <= refillRate cfg -> in_range cfg st ->
  chronological (lastUpdateTimestamp st) cs ->
  Forall (in_range cfg) (states_after cfg st cs).
Proof.
  intros Hs Hr Hin Hc.
  apply states_after_in_range with (t := lastUpdateTimestamp st); auto.
  apply Qle_refl.
Qed.

Definition sample_calls : list call :=
  [(TAKE, 5%Z, 0); (TAKE, 6%Z, 0); (STATUS, 1%Z, 5); (PUT, 3%Z, 6);
   (TAKE, 10%Z, 6); (PUT, 25%Z, 7)].

Lemma remaining_within_bounds_witness :
  Forall (in_range ten_per_second)
         (states_after ten_per_second (fresh ten_per_second 0) sample_calls).
Proof.
  apply (@remaining_within_bounds ten_per_second (fresh ten_per_second 0)
           sample_calls).
  - vm_compute. discriminate.
  - vm_compute. discriminate.
  - split; vm_compute; discriminate.
  - vm_compute. repeat split; discriminate.
Defined.

End BucketProps.

(** ** Properties of [indexOf] *)

Module JsStringProps.
Import JsString.

Lemma append_cons (x : ascii) (a post : string) :
  String.append (String x a) post = String x (String.append a post).
Proof. reflexivity. Qed.

Lemma append_nil (post : string) : String.append EmptyString post = post.
Proof. reflexivity. Qed.

Lemma prefix_append (a s : string) :
  String.prefix a s = true <-> exists post, s = String.append a post.
Proof.
  revert s. induction a as [|x a IH]; intros s.
  - destruct s; simpl; split; eauto.
  - destruct s as [|y s]; simpl.
    + split; [discriminate | intros [post H]; discriminate H].
    + destruct (Ascii.ascii_dec x y) as [->|Hne].
      * rewrite IH. split; intros [post H]; exists post.
        -- rewrite append_cons. congruence.
        -- rewrite append_cons in H. congruence.
      * split; [discriminate|].
        intros [post H]. rewrite append_cons in H. congruence.
Qed.

Lemma includes_cons (c : ascii) (s search : string) :
  includes (String c s) search <->
  String.prefix search (String c s) = true \/ includes s search.
Proof.
  split.
  - intros [pre [post H]]. destruct pre as [|x pre].
    + left. apply prefix_append. rewrite append_nil in H. eauto.
    + right. rewrite append_cons in H. exists pre, post. congruence.
  - intros [H | [pre [post H]]].
    + apply prefix_append in H as [post H]. exists EmptyString, post. exact H.
    + exists (String c pre), post. rewrite append_cons. congruence.
Qed.

Lemma includes_empty (search : string) :
  includes EmptyString search <-> String.prefix search EmptyString = true.
Proof.
  split.
  - intros [pre [post H]]. destruct pre; [|discriminate H].
    apply prefix_append. rewrite append_nil in H. eauto.
  - intros H. apply prefix_append in H as [post H].
    exists EmptyString, post. exact H.
Qed.

Lemma indexOf_from_spec (search s : string) : forall i : Z,
  (0 <= i)%Z ->
  (indexOf_from i s search = (-1)%Z <-> ~ includes s search) /\
  (indexOf_from i s search = (-1)%Z \/ (i <= indexOf_from i s search)%Z).
Proof.
  induction s as [|c s IH]; intros i Hi; cbn [indexOf_from].
  - rewrite includes_empty.
    destruct (String.prefix search EmptyString);
      intuition (auto; try lia; try discriminate).
  - rewrite includes_cons.
    destruct (String.prefix search (String c s)) eqn:Hp.
    + intuition (auto; try lia; try discriminate).
    + destruct (IH (i + 1)%Z ltac:(lia)) as [IH1 IH2].
      split; [|lia]. rewrite IH1. intuition discriminate.
Qed.

(** [indexOf] answers -1 exactly when the text does not occur. *)
Lemma indexOf_minus_one (s search : string) :
  indexOf s search = (-1)%Z <-> ~ includes s search.
Proof. apply indexOf_from_spec. lia. Qed.

Lemma indexOf_from_found (search s : string) : forall i : Z,
  indexOf_from i s search <> (-1)%Z -> includes s search.
Proof.
  induction s as [|c s IH]; intros i; cbn [indexOf_from].
  - destruct (String.prefix search EmptyString) eqn:Hp; [|congruence].
    intros _. apply includes_empty, Hp.
  - destruct (String.prefix search (String c s)) eqn:Hp.
    + intros _. apply includes_cons. left. exact Hp.
    + intros H. apply includes_cons. right. exact (IH _ H).
Qed.

(** [indexOf] answers something else exactly when the text occurs. *)
Lemma indexOf_found (s search : string) :
  indexOf s search <> (-1)%Z <-> includes s search.
Proof.
  split; [apply indexOf_from_found|].
  intros Hin H. apply indexOf_minus_one in H. contradiction.
Qed.

End JsStringProps.

(** ** Properties of the daemon *)

Module ServerProps.
Import Server JsString JsStringProps.

Section Pipeline.

Variables payload request response store : Type.
Variable decode : payload -> parsed request.
Variable handle : store -> request -> store * handling response.
Variable encode : response -> payload.

Local Abbreviation conn := (Server.conn payload request response).
Local Abbreviation daemon := (Server.daemon payload request response store).
Local Abbreviation event := (Server.event payload).
Local Abbreviation step := (Server.step decode handle encode).
Local Abbreviation run := (Server.run decode handle encode).

(** *** How one connection can move *)

Inductive conn_moves : conn -> conn -> Prop :=
| mv_same c : conn_moves c c
| mv_destroy c : conn_moves c (socket_destroy c)
| mv_receive c f : conn_moves c (receive c f)
| mv_decode c : conn_moves c (fst (decode_step decode c))
| mv_handle c s : conn_moves c (snd (fst (handle_step handle s c)))
| mv_encode c : conn_moves c (encode_step encode c)
| mv_write c : conn_moves c (write_step c).

Lemma sockets_fold_start (l : list (option callback)) : forall d : daemon,
  sockets (fold_left (@start _ _ _ _) l d) = sockets d /\
  stops (fold_left (@start _ _ _ _) l d) = stops d /\
  clock (fold_left (@start _ _ _ _) l d) = clock d /\
  db (fold_left (@start _ _ _ _) l d) = db d.
Proof.
  induction l as [|k l IH]; intros d; simpl; [auto|].
  destruct (IH (start d k)) as (-> & -> & -> & ->).
  unfold start. destruct (negb (db_open d)); simpl; auto.
Qed.

Lemma on_socket_lookup (d : daemon) (q p : peer)
    (f : conn -> conn * list action) (c : conn) :
  sockets d !! p = Some c ->
  sockets (on_socket d q f) !! p =
  Some (if decide (q = p) then fst (f c) else c).
Proof.
  intros H. unfold on_socket.
  destruct (decide (q = p)) as [->|Hne].
  - rewrite H. destruct (f c) as [c' acts]. simpl. apply lookup_insert_eq.
  - destruct (sockets d !! q) as [c0|]; [|exact H].
    destruct (f c0) as [c' acts]. simpl. rewrite lookup_insert_ne; auto.
Qed.

Lemma on_socket_absent (d : daemon) (q p : peer)
    (f : conn -> conn * list action) :
  sockets d !! p = None -> sockets (on_socket d q f) !! p = None.
Proof.
  intros H. unfold on_socket.
  destruct (sockets d !! q) as [c0|] eqn:Hq; [|exact H].
  destruct (f c0) as [c' acts]. simpl.
  rewrite lookup_insert_ne; [exact H | congruence].
Qed.

(** Whatever happens to the daemon, an open connection stays in the
    table and changes only by one of the moves above. *)
Lemma step_conn (ev : event) (d : daemon) (p : peer) (c : conn) :
  sockets d !! p = Some c ->
  exists c', sockets (step d ev) !! p = Some c' /\ conn_moves c c'.
Proof.
  intros H. destruct ev; simpl.
  - exists c. split; [|constructor].
    unfold start. destruct (negb (db_open d)); simpl; auto.
  - exists c. split; [|constructor]. unfold db_ready.
    destruct (sockets_fold_start (ready_once
      (act (set_db_open d true) Daemon [Log Info "Database ready." None]))
      (set_ready_once (act (set_db_open d true) Daemon
         [Log Info "Database ready." None]) [])) as [-> _]. exact H.
  - exists c. split; [exact H | constructor].
  - exists c. split; [exact H | constructor].
  - exists c. split; [exact H | constructor].
  - exists c. split; [|constructor]. unfold listen_callback.
    destruct (listens d); [exact H|]. destruct res; exact H.
  - exists c. split; [|constructor].
    destruct (accepting d); [|exact H].
    destruct (sockets d !! p0) eqn:Hq; [exact H|].
    unfold _handler. simpl. rewrite lookup_insert_ne; [exact H | congruence].
  - erewrite on_socket_lookup by exact H. eexists; split; [reflexivity|].
    destruct (decide (p0 = p)); simpl; constructor.
  - erewrite on_socket_lookup by exact H. eexists; split; [reflexivity|].
    destruct (decide (p0 = p)); simpl; constructor.
  - unfold on_handle. destruct (decide (p0 = p)) as [->|Hne].
    + rewrite H. pose proof (mv_handle c (db d)) as Hm.
      destruct (handle_step handle (db d) c) as [[s' c'] acts]. simpl in *.
      exists c'. split; [apply lookup_insert_eq | exact Hm].
    + exists c. split; [|constructor].
      destruct (sockets d !! p0) as [c0|]; [|exact H].
      destruct (handle_step handle (db d) c0) as [[s' c'] acts]. simpl.
      rewrite lookup_insert_ne; auto.
  - erewrite on_socket_lookup by exact H. eexists; split; [reflexivity|].
    destruct (decide (p0 = p)); simpl; constructor.
  - erewrite on_socket_lookup by exact H. eexists; split; [reflexivity|].
    destruct (decide (p0 = p)); simpl; constructor.
  - erewrite on_socket_lookup by exact H. eexists; split; [reflexivity|].
    destruct (decide (p0 = p)); simpl; constructor.
  - erewrite on_socket_lookup by exact H. eexists; split; [reflexivity|].
    destruct (decide (p0 = p)); simpl; constructor.
  - exists (socket_destroy c). split; [|constructor].
    unfold stop. simpl. rewrite lookup_fmap, H. reflexivity.
  - exists c. split; [|constructor]. unfold destroy_callback.
    destruct (stops d !! n); [|exact H]. destruct (stage s); exact H.
  - exists c. split; [|constructor]. unfold close_callback.
    destruct (stops d !! n); [|exact H]. destruct (stage s); try exact H.
    destruct (cb_call (wrapper s)). destruct err; exact H.
  - exists c. split; [|constructor]. unfold elapse.
    destruct (fire_timers (clock d + ms) 0 (stops d)). exact H.
Qed.

(** A connection enters the table only through [_handler]. *)
Lemma step_new_conn (ev : event) (d : daemon) (p : peer) :
  sockets d !! p = None ->
  sockets (step d ev) !! p = None \/ sockets (step d ev) !! p = Some accepted.
Proof.
  intros H. destruct ev; simpl.
  - left. unfold start. destruct (negb (db_open d)); simpl; auto.
  - left. unfold db_ready.
    destruct (sockets_fold_start (ready_once
      (act (set_db_open d true) Daemon [Log Info "Database ready." None]))
      (set_ready_once (act (set_db_open d true) Daemon
         [Log Info "Database ready." None]) [])) as [-> _]. exact H.
  - left. exact H.
  - left. exact H.
  - left. exact H.
  - left. unfold listen_callback.
    destruct (listens d); [exact H|]. destruct res; exact H.
  - destruct (accepting d); [|left; exact H].
    destruct (sockets d !! p0) eqn:Hq; [left; exact H|].
    unfold _handler. simpl. destruct (decide (p0 = p)) as [->|Hne].
    + right. apply lookup_insert_eq.
    + left. rewrite lookup_insert_ne; auto.
  - left. apply on_socket_absent, H.
  - left. apply on_socket_absent, H.
  - left. unfold on_handle.
    destruct (sockets d !! p0) as [c0|] eqn:Hq; [|exact H].
    destruct (handle_step handle (db d) c0) as [[s' c'] acts]. simpl.
    rewrite lookup_insert_ne; [exact H | congruence].
  - left. apply on_socket_absent, H.
  - left. apply on_socket_absent, H.
  - left. apply on_socket_absent, H.
  - left. apply on_socket_absent, H.
  - left. unfold stop. simpl. rewrite lookup_fmap, H. reflexivity.
  - left. unfold destroy_callback.
    destruct (stops d !! n); [|exact H]. destruct (stage s); exact H.
  - left. unfold close_callback.
    destruct (stops d !! n); [|exact H]. destruct (stage s); try exact H.
    destruct (cb_call (wrapper s)). destruct err; exact H.
  - left. unfold elapse.
    destruct (fire_timers (clock d + ms) 0 (stops d)). exact H.
Qed.

Lemma run_app (d : daemon) (evs1 evs2 : list event) :
  run d (evs1 ++ evs2) = run (run d evs1) evs2.
Proof. unfold Server.run. apply fold_left_app. Qed.

(** A property of connections that holds of a fresh one and survives every
    move holds of every connection of a running daemon. *)
Lemma conn_invariant (P : conn -> Prop) :
  P accepted ->
  (forall c c', conn_moves c c' -> P c -> P c') ->
  forall (evs : list event) (d : daemon),
    (forall p c, sockets d !! p = Some c -> P c) ->
    forall p c, sockets (run d evs) !! p = Some c -> P c.
Proof.
  intros Hnew Hmove. induction evs as [|ev evs IH]; intros d Hd p c Hc.
  - exact (Hd p c Hc).
  - simpl in Hc. eapply IH; [|exact Hc].
    intros q cq Hq. destruct (sockets d !! q) as [c0|] eqn:H0.
    + destruct (step_conn ev _ _ H0) as (c' & Hc' & Hm).
      rewrite Hc' in Hq. injection Hq as <-. eauto.
    + destruct (step_new_conn ev _ _ H0) as [Hn|Hn];
        rewrite Hn in Hq; [discriminate|]. injection Hq as <-. exact Hnew.
Qed.

Lemma conn_persists (P : conn -> Prop) :
  (forall c c', conn_moves c c' -> P c -> P c') ->
  forall (evs : list event) (d : daemon) (p : peer) (c : conn),
    sockets d !! p = Some c -> P c ->
    exists c', sockets (run d evs) !! p = Some c' /\ P c'.
Proof.
  intros Hmove. induction evs as [|ev evs IH]; intros d p c Hc HP.
  - exists c. auto.
  - destruct (step_conn ev _ _ Hc) as (c' & Hc' & Hm).
    simpl. eapply IH; eauto.
Qed.

(** *** The pipeline is first in, first out *)

Definition request_in (f : payload) : option request :=
  match decode f with
  | Request r => Some r
  | Malformed _ => None
  end.

(** The requests among the frames [fs], in order. *)
Definition requests_of (fs : list payload) : list request :=
  omap request_in fs.

(** The responses the handler pushed, in order. *)
Definition replies (hs : list (request * handling response)) : list response :=
  omap (fun rh => reply (snd rh)) hs.

(** [a] is what the handler answers to [r] in some state of the store. *)
Definition answer_of (r : request) (a : response) : Prop :=
  exists s, reply (snd (handle s r)) = Some a.

(** The requests reach the handler in the order their frames came in.
    [lost] are the requests the decoder produced when it was no longer
    piped into the handler, [late] those of the frames that came when
    [lps.decode()] was no longer piped into the decoder. *)
Record fifo (c : conn) : Prop := {
  fifo_in :
    exists lost late,
      requests_of (received c) =
      map fst (handled c) ++ decoded c ++ lost ++
      requests_of (inbound c) ++ late /\
      (handler_armed c = true -> lost = []) /\
      (decoder_piped c = true -> late = []);
  fifo_handler_cut : handler_armed c = false -> decoded c = [];
  fifo_decoder_cut : decoder_piped c = false -> inbound c = [];
  fifo_out :
    map encode (replies (handled c)) =
    written c ++ encoded c ++ map encode (answered c);
  fifo_handled :
    Forall (fun rh => exists s, snd (handle s (fst rh)) = snd rh) (handled c)
}.

Lemma requests_of_app (fs gs : list payload) :
  requests_of (fs ++ gs) = requests_of fs ++ requests_of gs.
Proof. apply omap_app. Qed.

Lemma requests_of_request (f : payload) (r : request) (fs : list payload) :
  decode f = Request r -> requests_of (f :: fs) = r :: requests_of fs.
Proof.
  intros H. unfold requests_of. simpl. unfold request_in at 1.
  rewrite H. reflexivity.
Qed.

Lemma requests_of_malformed (f : payload) (e : error) (fs : list payload) :
  decode f = Malformed e -> requests_of (f :: fs) = requests_of fs.
Proof.
  intros H. unfold requests_of. simpl. unfold request_in at 1.
  rewrite H. reflexivity.
Qed.

Lemma fifo_accepted : fifo accepted.
Proof.
  split; simpl; auto; try discriminate.
  exists [], []. auto.
Qed.

(** What the request handler's ['error'] changes of a connection. *)
Lemma emits_error_fields (c : conn) (e : error) :
  let c' := fst (request_handler_emits_error c e) in
  inbound c' = inbound c /\ answered c' = answered c /\
  encoded c' = encoded c /\ written c' = written c /\
  received c' = received c /\ handled c' = handled c /\
  destroyed c' = destroyed c /\ decoder_piped c' = decoder_piped c /\
  (ended c = true -> ended c' = true) /\
  handler_armed c' = false /\
  (handler_armed c = true -> decoded c' = []) /\
  (handler_armed c = false -> c' = c).
Proof.
  unfold request_handler_emits_error, request_handler_once_error.
  destruct (handler_armed c) eqn:Ha; [destruct (critical e)|]; simpl;
    repeat split; auto; discriminate.
Qed.

Lemma fifo_moves (c c' : conn) : conn_moves c c' -> fifo c -> fifo c'.
Proof.
  intros Hm [(lost & late & Hin & Hlost & Hlate) Hhc Hdc Hout Hh].
  destruct Hm.
  - split; eauto 6.
  - split; simpl; eauto 6.
  - unfold receive. destruct (destroyed c); [split; eauto 6|].
    destruct (decoder_piped c) eqn:Hp; split; simpl; auto; try discriminate.
    + exists lost, []. repeat split; auto.
      rewrite !requests_of_app, Hin, (Hlate eq_refl), !app_nil_r,
        <- !app_assoc.
      reflexivity.
    + exists lost, (late ++ requests_of [f]).
      repeat split; auto; [|discriminate].
      rewrite !requests_of_app, Hin, <- !app_assoc. reflexivity.
  - unfold decode_step. destruct (inbound c) as [|f rest] eqn:Hi;
      [split; simpl; rewrite ?Hi; eauto 6|].
    assert (Hp : decoder_piped c = true).
    { destruct (decoder_piped c); [reflexivity|].
      specialize (Hdc eq_refl). discriminate. }
    destruct (decode f) as [r|e] eqn:Hf.
    + destruct (handler_armed c) eqn:Ha; split; simpl; auto;
        try discriminate; try congruence.
      * exists [], late. repeat split; auto.
        rewrite Hin, (Hlost eq_refl), (requests_of_request _ Hf),
          <- !app_assoc.
        reflexivity.
      * exists (lost ++ [r]), late.
        repeat split; auto; [|discriminate].
        rewrite Hin, (requests_of_request _ Hf), <- !app_assoc. reflexivity.
    + unfold decoder_emits_error, decoder_on_error. split; simpl; auto.
      exists lost, (requests_of rest ++ late).
      repeat split; auto; [|discriminate].
      rewrite Hin, (requests_of_malformed _ Hf). reflexivity.
  - unfold handle_step. destruct (decoded c) as [|r rest] eqn:Hd;
      [split; simpl; rewrite ?Hd; eauto 6|].
    assert (Ha : handler_armed c = true).
    { destruct (handler_armed c); [reflexivity|].
      specialize (Hhc eq_refl). discriminate. }
    destruct (handle s r) as [s' h] eqn:Hs.
    assert (Hh' : Forall (fun rh => exists s0, snd (handle s0 (fst rh)) = snd rh)
                         (handled c ++ [(r, h)])).
    { apply Forall_app. split; [exact Hh|]. constructor; [|constructor].
      exists s. simpl. rewrite Hs. reflexivity. }
    assert (Hout' :
      map encode (replies (handled c ++ [(r, h)])) =
      written c ++ encoded c ++
      map encode (match reply h with
                  | Some a => answered c ++ [a]
                  | None => answered c
                  end)).
    { unfold replies in *. rewrite omap_app, map_app, Hout. simpl.
      destruct (reply h); simpl; rewrite ?map_app, <- ?app_assoc; simpl;
        rewrite ?app_nil_r; reflexivity. }
    assert (Hin' :
      requests_of (received c) =
      map fst (handled c ++ [(r, h)]) ++ rest ++
      requests_of (inbound c) ++ late).
    { rewrite Hin, (Hlost Ha), map_app, <- app_assoc. reflexivity. }
    destruct (raised h) as [e|].
    + unfold request_handler_emits_error, request_handler_once_error.
      simpl. rewrite Ha.
      destruct (critical e); split; simpl; auto; try discriminate;
        exists rest, late; (repeat split; auto; discriminate).
    + split; simpl; auto; try (intros; congruence).
      exists [], late. repeat split; auto.
  - unfold encode_step. destruct (answered c) as [|a rest] eqn:Ha;
      [split; simpl; rewrite ?Ha; eauto 6|].
    split; simpl; eauto 6.
    rewrite Hout. simpl. rewrite <- !app_assoc. reflexivity.
  - unfold write_step. destruct (encoded c) as [|f rest] eqn:He;
      [split; simpl; rewrite ?He; eauto 6|].
    destruct (ended c || destroyed c);
      [split; simpl; rewrite ?He; eauto 6|].
    split; simpl; eauto 6. rewrite Hout. rewrite <- !app_assoc. reflexivity.
Qed.

Lemma replies_answer (hs : list (request * handling response)) :
  Forall (fun rh => is_Some (reply (snd rh))) hs ->
  Forall (fun rh => exists s, snd (handle s (fst rh)) = snd rh) hs ->
  Forall2 answer_of (map fst hs) (replies hs) /\
  length (replies hs) = length hs.
Proof.
  induction hs as [|[r h] hs IH]; intros Ha Hh; simpl.
  - split; [constructor | reflexivity].
  - inversion Ha as [|? ? [a Hr] Ha']; subst.
    inversion Hh as [|? ? [s Hs] Hh']; subst. simpl in *.
    destruct (IH Ha' Hh') as [IH1 IH2].
    unfold replies. simpl. rewrite Hr. simpl. split.
    + constructor; [|exact IH1]. exists s. rewrite Hs. exact Hr.
    + f_equal. exact IH2.
Qed.

Local Abbreviation new_daemon := (@LimitdServer payload request response store).

Lemma fifo_run (options : config) (s0 : store) (evs : list event)
    (p : peer) (c : conn) :
  sockets (run (new_daemon options s0) evs) !! p = Some c -> fifo c.
Proof.
  intros Hc.
  apply (@conn_invariant fifo fifo_accepted fifo_moves evs
           (new_daemon options s0)) with (p := p); [|exact Hc].
  intros q cq Hq. simpl in Hq. rewrite lookup_empty in Hq. discriminate.
Qed.

(** C3 (amended): on every connection of a running daemon, what has been
    written to the socket is always, in order, an initial part of the
    encoded responses the handler pushed; the requests handled are an
    initial part of the requests received, each handled once and in the
    order received; and what is recorded as handled is what the handler
    answers.  Once the pipeline has drained on a connection on which
    neither the decoder nor the request handler has emitted ['error'],
    every request received has been handled and the frames written are
    exactly the responses the handler pushed for them: one response per
    request, [resp r1, ..., resp rn], when the handler pushed a response
    for each. *)
Theorem responses_in_request_order (options : config) (s0 : store)
    (evs : list event) (p : peer) (c : conn) :
  sockets (run (new_daemon options s0) evs) !! p = Some c ->
  (exists later, map encode (replies (handled c)) = written c ++ later) /\
  (exists waiting,
     requests_of (received c) = map fst (handled c) ++ waiting) /\
  Forall (fun rh => exists s, snd (handle s (fst rh)) = snd rh) (handled c) /\
  (inbound c = [] -> decoded c = [] -> answered c = [] -> encoded c = [] ->
   decoder_piped c = true -> handler_armed c = true ->
   map fst (handled c) = requests_of (received c) /\
   written c = map encode (replies (handled c)) /\
   (Forall (fun rh => is_Some (reply (snd rh))) (handled c) ->
    exists resps,
      written c = map encode resps /\
      Forall2 answer_of (requests_of (received c)) resps)).
Proof.
  intros Hc.
  destruct (fifo_run _ _ _ _ Hc)
    as [(lost & late & Hin & Hlost & Hlate) _ _ Hout Hh].
  split; [eauto|]. split; [eauto|]. split; [exact Hh|].
  intros Ei Ed Ea Ee Hp Harm.
  rewrite Ei, Ed, (Hlost Harm), (Hlate Hp) in Hin. simpl in Hin.
  rewrite app_nil_r in Hin.
  rewrite Ee, Ea in Hout. simpl in Hout. rewrite app_nil_r in Hout.
  split; [auto|]. split; [auto|]. intros Hall.
  exists (replies (handled c)). split; [auto|].
  rewrite Hin. apply replies_answer; assumption.
Qed.

(** *** Errors of the pipeline *)

(** The connection after an ['error'] of its decoder: the socket was ended
    and [w] is all that was ever written to it; the decoder is fed no
    frame; the handler, which had handled [h], can only take what is left
    of the requests [q] that the decoder had passed on before. *)
Definition dead_end (w : list payload) (h : list (request * handling response))
    (q : list request) (c : conn) : Prop :=
  ended c = true /\ written c = w /\
  decoder_piped c = false /\ inbound c = [] /\
  exists since dropped,
    handled c = h ++ since /\ q = map fst since ++ decoded c ++ dropped.

Lemma dead_end_moves (w : list payload)
    (h : list (request * handling response)) (q : list request)
    (c c' : conn) :
  conn_moves c c' -> dead_end w h q c -> dead_end w h q c'.
Proof.
  intros Hm (He & Hw & Hp & Hi & since & dropped & Hh & Hq).
  unfold dead_end. destruct Hm.
  - eauto 10.
  - simpl. eauto 10.
  - unfold receive. destruct (destroyed c); simpl; [eauto 10|].
    rewrite Hp. eauto 10.
  - unfold decode_step. rewrite Hi. eauto 10.
  - unfold handle_step. destruct (decoded c) as [|r rest] eqn:Hd;
      [rewrite <- Hd in Hq; eauto 10|].
    destruct (handle s r) as [s' h0].
    assert (Hq' : q = map fst (since ++ [(r, h0)]) ++ rest ++ dropped).
    { rewrite Hq, map_app, <- app_assoc. reflexivity. }
    assert (Hh' : handled c ++ [(r, h0)] = h ++ since ++ [(r, h0)]).
    { rewrite Hh, <- app_assoc. reflexivity. }
    destruct (raised h0) as [e|]; [|simpl; eauto 10].
    unfold request_handler_emits_error, request_handler_once_error. simpl.
    destruct (handler_armed c); [|simpl; eauto 10].
    destruct (critical e); simpl; repeat split; auto;
      exists (since ++ [(r, h0)]), (rest ++ dropped); auto.
  - unfold encode_step. destruct (answered c); simpl; eauto 10.
  - unfold write_step. destruct (encoded c); [eauto 10|].
    rewrite He. simpl. eauto 10.
Qed.

(** C8: when the decoder meets a malformed frame on a connection, the
    error is logged and the socket of that connection is ended at once;
    the frame yields neither a request nor a response; the decoder is fed
    nothing any more, so the frames that were waiting behind the malformed
    one and every frame that comes later are never decoded, whatever
    happens afterwards: all the handler can still take are requests that
    had been decoded before; nothing is ever written to that socket again.
    The other connections, the listener, the store and the pending
    shutdowns are as they were. *)
Theorem malformed_frame_is_terminal (d : daemon) (p : peer) (c : conn)
    (f : payload) (rest : list payload) (e : error) :
  sockets d !! p = Some c -> inbound c = f :: rest -> decode f = Malformed e ->
  let d' := step d (DecodeStep p) in
  (exists c', sockets d' !! p = Some c' /\
     ended c' = true /\ decoder_piped c' = false /\ inbound c' = [] /\
     decoded c' = decoded c /\
     answered c' = answered c /\ encoded c' = encoded c /\
     written c' = written c /\ handled c' = handled c) /\
  trace d' = trace d ++ [(Conn p, Log Error pipeline_error_text (Some e))] /\
  (forall q, q <> p -> sockets d' !! q = sockets d !! q) /\
  accepting d' = accepting d /\ server_address d' = server_address d /\
  db d' = db d /\ stops d' = stops d /\
  (forall evs, exists c'',
     sockets (run d' evs) !! p = Some c'' /\
     ended c'' = true /\ written c'' = written c /\
     decoder_piped c'' = false /\ inbound c'' = [] /\
     exists since dropped,
       handled c'' = handled c ++ since /\
       decoded c = map fst since ++ decoded c'' ++ dropped).
Proof.
  intros Hc Hi Hf. simpl. unfold on_socket. rewrite Hc.
  unfold decode_step. rewrite Hi, Hf.
  unfold decoder_emits_error, decoder_on_error. simpl.
  match goal with
  | |- context [<[p := ?c0]> (sockets d)] => set (c1 := c0)
  end.
  assert (Hl : forall m : gmap peer conn, <[p := c1]> m !! p = Some c1).
  { intros m. apply lookup_insert_eq. }
  repeat split.
  - exists c1. split; [apply Hl|]. simpl. auto 10.
  - intros q Hq. apply lookup_insert_ne. congruence.
  - intros evs.
    apply conn_persists
      with (P := dead_end (written c) (handled c) (decoded c)) (c := c1).
    + apply dead_end_moves.
    + apply Hl.
    + repeat split. exists [], []. simpl. rewrite !app_nil_r. auto.
Qed.

(** C9: the listener on the request handler's ['error'] runs once.  The
    first error is classified by whether its message contains
    ["undefined bucket type"], and by nothing else: if it does, the error
    is logged at info level and the socket is left alone; if it does not,
    the error is logged at error level and the socket is ended.  With
    that first error the listener is gone and the handler is fed no
    request any more.  Every later error of the handler on that
    connection, critical or not, finds no listener: it is neither
    classified nor logged, the socket is not ended and the connection is
    as it was; [emit] throws the error. *)
Theorem handler_error_one_shot (c : conn) (e1 : error) :
  handler_armed c = true ->
  let c1 := fst (request_handler_emits_error c e1) in
  let log1 := snd (request_handler_emits_error c e1) in
  (critical e1 = false <-> includes (message e1) "undefined bucket type") /\
  (critical e1 = false ->
     ended c1 = ended c /\
     log1 = [Log Info pipeline_error_text (Some e1)]) /\
  (critical e1 = true ->
     ended c1 = true /\
     log1 = [Log Error pipeline_error_text (Some e1)]) /\
  handler_armed c1 = false /\ decoded c1 = [] /\
  (forall e2 : error,
     request_handler_emits_error c1 e2 = (c1, [Uncaught e2])).
Proof.
  intros Ha.
  unfold request_handler_emits_error, request_handler_once_error.
  rewrite Ha. split.
  - unfold critical. rewrite <- indexOf_found.
    destruct (Z.eqb_spec (indexOf (message e1) "undefined bucket type") (-1));
      intuition congruence.
  - destruct (critical e1); simpl; repeat split; auto; discriminate.
Qed.

(** The connection once its request handler has emitted ['error']: the
    handler is fed nothing, so [h] is all it ever handles and the
    responses it pushed for [h] are all that can ever be written. *)
Definition unfed (h : list (request * handling response)) (c : conn) : Prop :=
  handler_armed c = false /\ decoded c = [] /\ handled c = h.

Lemma unfed_moves (h : list (request * handling response)) (c c' : conn) :
  conn_moves c c' -> unfed h c -> unfed h c'.
Proof.
  intros Hm (Ha & Hd & Hh). unfold unfed. destruct Hm; simpl; auto.
  - unfold receive. destruct (destroyed c); simpl; auto.
  - unfold decode_step. destruct (inbound c) as [|f rest]; [auto|].
    destruct (decode f); simpl; rewrite ?Ha; auto.
  - unfold handle_step. rewrite Hd. auto.
  - unfold encode_step. destruct (answered c); simpl; auto.
  - unfold write_step. destruct (encoded c); [auto|].
    destruct (ended c || destroyed c); simpl; auto.
Qed.

(** Seen from the daemon: the first error of a connection's request
    handler stops the handling of requests on that connection for good,
    whether or not the socket was ended. *)
Lemma handler_error_stops_service (d : daemon) (p : peer) (c : conn)
    (r : request) (rest : list request) (e : error) :
  sockets d !! p = Some c -> handler_armed c = true ->
  decoded c = r :: rest -> raised (snd (handle (db d) r)) = Some e ->
  let d' := step d (HandleStep p) in
  trace d' =
  trace d ++ [(Conn p, Log (if critical e then Error else Info)
                           pipeline_error_text (Some e))] /\
  forall evs, exists c',
    sockets (run d' evs) !! p = Some c' /\
    handler_armed c' = false /\ decoded c' = [] /\
    handled c' = handled c ++ [(r, snd (handle (db d) r))].
Proof.
  intros Hc Ha Hd Hr. simpl. unfold on_handle. rewrite Hc.
  unfold handle_step. rewrite Hd.
  destruct (handle (db d) r) as [s' h]. simpl in Hr. rewrite Hr.
  unfold request_handler_emits_error, request_handler_once_error.
  simpl. rewrite Ha. simpl. split; [reflexivity|].
  intros evs.
  match goal with
  | |- context [<[p := ?c0]> (sockets d)] => set (c1 := c0)
  end.
  apply conn_persists
    with (P := unfed (handled c ++ [(r, h)])) (c := c1).
  - apply unfed_moves.
  - apply lookup_insert_eq.
  - subst c1. destruct (critical e); repeat split.
Qed.

(** After the first error of its request handler a connection handles no
    request any more, and all that can still be written to its socket are
    responses the handler had pushed before. *)
Lemma unfed_forever (d : daemon) (p : peer) (c : conn) :
  sockets d !! p = Some c -> handler_armed c = false -> decoded c = [] ->
  fifo c ->
  forall evs, exists c',
    sockets (run d evs) !! p = Some c' /\
    handler_armed c' = false /\ handled c' = handled c /\
    exists later, map encode (replies (handled c)) = written c' ++ later.
Proof.
  intros Hc Ha Hd Hf evs.
  destruct (@conn_persists (fun c' => unfed (handled c) c' /\ fifo c'))
    with (evs := evs) (d := d) (p := p) (c := c)
    as (c' & Hc' & (Ha' & _ & Hh') & Hf'); auto.
  - intros c1 c2 Hm [H1 H2].
    split; [eapply unfed_moves | eapply fifo_moves]; eassumption.
  - split; [repeat split; auto | exact Hf].
  - exists c'. split; [exact Hc'|]. split; [exact Ha'|]. split; [exact Hh'|].
    rewrite <- Hh'. destruct Hf' as [_ _ _ Hout _]. eauto.
Qed.

(** *** Shutdown: how one call of [stop] can move *)

(** The actions of the [n]-th call of [stop], in the order they happened. *)
Definition mine (n : nat) (tr : list entry) : list action :=
  omap (fun e : entry =>
          match fst e with
          | Stopping m => if m =? n then Some (snd e) else None
          | _ => None
          end) tr.

Definition destroy_log (err : option error) : action :=
  match err with
  | Some e => Log Error "error closing the tcp server" (Some e)
  | None => Log Debug "server closed" None
  end.

Definition close_log (err : option error) : action :=
  match err with
  | Some e => Log Error "error closing the database" (Some e)
  | None => Log Debug "database closed" None
  end.

(** An event that is neither the callback the [n]-th call of [stop] is
    waiting for in the state [s], nor the passing of time. *)
Definition idle (n : nat) (s : stopping) (ev : event) : Prop :=
  match ev with
  | ServerDestroyed m _ => m <> n \/ stage s <> Closing_server
  | DbClosed m _ => m <> n \/ forall e1, stage s <> Closing_db e1
  | Elapse _ => False
  | _ => True
  end.

Inductive stop_moves (n : nat) (c : nat) (s : stopping)
  : event -> nat -> stopping -> list action -> Prop :=
| sm_idle ev : idle n s ev -> stop_moves n c s ev c s []
| sm_destroyed err :
    stage s = Closing_server ->
    stop_moves n c s (ServerDestroyed n err) c
               (set_stage s (Closing_db err) (wrapper s))
               [destroy_log err; CloseDb]
| sm_closed e1 err :
    stage s = Closing_db e1 ->
    stop_moves n c s (DbClosed n err) c
               (set_stage s Closed (fst (cb_call (wrapper s))))
               ([close_log err; Emit close] ++
                if snd (cb_call (wrapper s))
                then [Complete (user_callback s) (js_or e1 err)]
                else [])
| sm_timer ms :
    stop_moves n c s (Elapse ms) (c + ms)
               (fst (fire_timer (c + ms) n s))
               (map snd (snd (fire_timer (c + ms) n s))).

Lemma mine_app (n : nat) (tr1 tr2 : list entry) :
  mine n (tr1 ++ tr2) = mine n tr1 ++ mine n tr2.
Proof. apply omap_app. Qed.

Lemma mine_daemon (n : nat) (acts : list action) :
  mine n (map (pair Daemon) acts) = [].
Proof. induction acts; simpl; auto. Qed.

Lemma mine_conn (n : nat) (p : peer) (acts : list action) :
  mine n (map (pair (Conn p)) acts) = [].
Proof. induction acts; simpl; auto. Qed.

Lemma mine_stopping (n m : nat) (acts : list action) :
  mine n (map (pair (Stopping m)) acts) = if m =? n then acts else [].
Proof.
  induction acts as [|a acts IH]; simpl.
  - destruct (m =? n); reflexivity.
  - unfold mine in *. simpl. rewrite IH. destruct (m =? n); reflexivity.
Qed.

Lemma mine_act_daemon (n : nat) (d : daemon) (acts : list action) :
  mine n (trace (act d Daemon acts)) = mine n (trace d).
Proof. simpl. rewrite mine_app, mine_daemon. apply app_nil_r. Qed.

Lemma mine_act_conn (n : nat) (d : daemon) (p : peer) (acts : list action) :
  mine n (trace (act d (Conn p) acts)) = mine n (trace d).
Proof. simpl. rewrite mine_app, mine_conn. apply app_nil_r. Qed.

Lemma mine_start (n : nat) (d : daemon) (k : option callback) :
  mine n (trace (start d k)) = mine n (trace d).
Proof.
  unfold start. destruct (negb (db_open d)); [reflexivity|].
  rewrite mine_act_daemon. reflexivity.
Qed.

Lemma mine_fold_start (n : nat) (l : list (option callback)) : forall d : daemon,
  mine n (trace (fold_left (@start _ _ _ _) l d)) = mine n (trace d).
Proof.
  induction l as [|k l IH]; intros d; simpl; [reflexivity|].
  rewrite IH. apply mine_start.
Qed.

Lemma mine_on_socket (n : nat) (d : daemon) (p : peer)
    (f : conn -> conn * list action) :
  mine n (trace (on_socket d p f)) = mine n (trace d) /\
  stops (on_socket d p f) = stops d /\ clock (on_socket d p f) = clock d.
Proof.
  unfold on_socket. destruct (sockets d !! p) as [c|]; [|auto].
  destruct (f c) as [c' acts]. split; [|auto].
  rewrite mine_act_conn. reflexivity.
Qed.

(** The timers of the other calls neither touch this call's record nor
    act in its name. *)
Lemma fire_timers_lookup (now : nat) (ss : list stopping) : forall m i s,
  ss !! i = Some s ->
  fst (fire_timers now m ss) !! i = Some (fst (fire_timer now (m + i) s)) /\
  mine (m + i) (snd (fire_timers now m ss)) =
  map snd (snd (fire_timer now (m + i) s)).
Proof.
  assert (Hother : forall j n s0, j <> n ->
            mine n (snd (fire_timer now j s0)) = []).
  { intros j n s0 Hj. unfold fire_timer.
    destruct (tid (wrapper s0)) as [t|]; [|reflexivity].
    destruct (t <=? now); [|reflexivity].
    destruct (cb_timer (wrapper s0)) as [g [|]]; [|reflexivity].
    unfold mine. simpl. destruct (Nat.eqb_spec j n); [contradiction|reflexivity]. }
  assert (Hself : forall n s0,
            mine n (snd (fire_timer now n s0)) =
            map snd (snd (fire_timer now n s0))).
  { intros n s0. unfold fire_timer.
    destruct (tid (wrapper s0)) as [t|]; [|reflexivity].
    destruct (t <=? now); [|reflexivity].
    destruct (cb_timer (wrapper s0)) as [g [|]]; [|reflexivity].
    unfold mine. simpl. rewrite Nat.eqb_refl. reflexivity. }
  assert (Hlater : forall ss0 m n, n < m ->
            mine n (snd (fire_timers now m ss0)) = []).
  { induction ss0 as [|s0 ss0 IH]; intros m n Hn; simpl; [reflexivity|].
    destruct (fire_timer now m s0) as [s0' a] eqn:E1.
    destruct (fire_timers now (S m) ss0) as [r b] eqn:E2. simpl.
    rewrite mine_app.
    replace a with (snd (fire_timer now m s0)) by (rewrite E1; reflexivity).
    replace b with (snd (fire_timers now (S m) ss0)) by (rewrite E2; reflexivity).
    rewrite Hother by lia. rewrite IH by lia. reflexivity. }
  induction ss as [|s0 ss IH]; intros m i s Hi; [discriminate|].
  simpl.
  destruct (fire_timer now m s0) as [s0' a] eqn:E1.
  destruct (fire_timers now (S m) ss) as [r b] eqn:E2. simpl.
  rewrite mine_app.
  replace a with (snd (fire_timer now m s0)) by (rewrite E1; reflexivity).
  replace b with (snd (fire_timers now (S m) ss)) by (rewrite E2; reflexivity).
  destruct i as [|i]; simpl in Hi.
  - injection Hi as ->. rewrite Nat.add_0_r.
    rewrite Hself, Hlater by lia. rewrite E1. simpl.
    split; [reflexivity | apply app_nil_r].
  - destruct (IH (S m) i s Hi) as [IH1 IH2].
    rewrite E2 in IH1. simpl in IH1.
    replace (m + S i) with (S m + i) by lia.
    rewrite Hother by lia. simpl. split; [exact IH1 | exact IH2].
Qed.

Lemma fire_timers_length (now : nat) (ss : list stopping) : forall m,
  length (fst (fire_timers now m ss)) = length ss.
Proof.
  induction ss as [|s0 ss IH]; intros m; simpl; [reflexivity|].
  destruct (fire_timer now m s0) as [s0' a].
  specialize (IH (S m)).
  destruct (fire_timers now (S m) ss) as [r b]. simpl in *. lia.
Qed.

Lemma fire_timers_beyond (now : nat) (ss : list stopping) : forall m n,
  m + length ss <= n -> mine n (snd (fire_timers now m ss)) = [].
Proof.
  induction ss as [|s0 ss IH]; intros m n Hn; simpl; [reflexivity|].
  destruct (fire_timer now m s0) as [s0' a] eqn:E1.
  specialize (IH (S m) n).
  destruct (fire_timers now (S m) ss) as [r b]. simpl in *.
  rewrite mine_app, IH by lia. rewrite app_nil_r.
  replace a with (snd (fire_timer now m s0)) by (rewrite E1; reflexivity).
  unfold fire_timer.
  destruct (tid (wrapper s0)) as [t|]; [|reflexivity].
  destruct (t <=? now); [|reflexivity].
  destruct (cb_timer (wrapper s0)) as [g [|]]; [|reflexivity].
  unfold mine. simpl. destruct (Nat.eqb_spec m n); [lia|reflexivity].
Qed.

Lemma destroy_callback_effect (d : daemon) (n : nat) (s : stopping)
    (err : option error) :
  stops d !! n = Some s -> stage s = Closing_server ->
  stops (destroy_callback d n err) =
    <[n := set_stage s (Closing_db err) (wrapper s)]> (stops d) /\
  clock (destroy_callback d n err) = clock d /\
  trace (destroy_callback d n err) =
    trace d ++ map (pair (Stopping n)) [destroy_log err; CloseDb].
Proof.
  intros H Hst. unfold destroy_callback. rewrite H, Hst. auto.
Qed.

Lemma close_callback_effect (d : daemon) (n : nat) (s : stopping)
    (e1 err : option error) :
  stops d !! n = Some s -> stage s = Closing_db e1 ->
  stops (close_callback d n err) =
    <[n := set_stage s Closed (fst (cb_call (wrapper s)))]> (stops d) /\
  clock (close_callback d n err) = clock d /\
  trace (close_callback d n err) =
    trace d ++ map (pair (Stopping n))
      ([close_log err; Emit close] ++
       if snd (cb_call (wrapper s))
       then [Complete (user_callback s) (js_or e1 err)]
       else []).
Proof.
  intros H Hst. unfold close_callback. rewrite H, Hst.
  destruct (cb_call (wrapper s)) as [g invoked]. destruct err; simpl; auto.
Qed.

(** Whatever happens to the daemon, a call of [stop] keeps its record and
    acts only by one of the moves above. *)
Lemma step_stopping (ev : event) (d : daemon) (n : nat) (s : stopping) :
  stops d !! n = Some s ->
  exists s' acts,
    stops (step d ev) !! n = Some s' /\
    mine n (trace (step d ev)) = mine n (trace d) ++ acts /\
    stop_moves n (clock d) s ev (clock (step d ev)) s' acts.
Proof.
  intros H.
  assert (Hidle : forall d' : daemon,
            idle n s ev ->
            stops d' = stops d -> clock d' = clock d ->
            mine n (trace d') = mine n (trace d) ->
            exists s' acts,
              stops d' !! n = Some s' /\
              mine n (trace d') = mine n (trace d) ++ acts /\
              stop_moves n (clock d) s ev (clock d') s' acts).
  { intros d' Hi E1 E2 E3. exists s, []. rewrite E1, E2, E3, app_nil_r.
    split; [exact H|]. split; [reflexivity | constructor; exact Hi]. }
  destruct ev; cbn [Server.step].
  - apply Hidle; [exact I| | |apply mine_start];
      unfold start; destruct (negb (db_open d)); reflexivity.
  - unfold db_ready. apply Hidle; [exact I| | |].
    + rewrite (proj1 (proj2 (sockets_fold_start _ _))). reflexivity.
    + rewrite (proj1 (proj2 (proj2 (sockets_fold_start _ _)))). reflexivity.
    + rewrite mine_fold_start. simpl. rewrite mine_app. apply app_nil_r.
  - apply Hidle; [exact I|..]; auto using mine_act_daemon.
  - apply Hidle; [exact I|..]; auto using mine_act_daemon.
  - apply Hidle; [exact I|..]; auto using mine_act_daemon.
  - unfold listen_callback. destruct (listens d); [apply Hidle; [exact I|..]; auto|].
    destruct res; (apply Hidle; [exact I|..]); auto;
      rewrite mine_act_daemon; reflexivity.
  - destruct (accepting d); [|apply Hidle; [exact I|..]; auto].
    destruct (sockets d !! p); [apply Hidle; [exact I|..]; auto|].
    apply Hidle; [exact I|..]; auto.
    unfold _handler. rewrite mine_act_conn. reflexivity.
  - match goal with
    | |- context [on_socket d ?q ?g] =>
        destruct (@mine_on_socket n d q g) as (? & ? & ?)
    end; apply Hidle; [exact I|..]; assumption.
  - match goal with
    | |- context [on_socket d ?q ?g] =>
        destruct (@mine_on_socket n d q g) as (? & ? & ?)
    end; apply Hidle; [exact I|..]; assumption.
  - unfold on_handle. destruct (sockets d !! p); [|apply Hidle; [exact I|..]; auto].
    destruct (handle_step handle (db d) c) as [[s' c'] acts].
    apply Hidle; [exact I|..]; auto. rewrite mine_act_conn. reflexivity.
  - match goal with
    | |- context [on_socket d ?q ?g] =>
        destruct (@mine_on_socket n d q g) as (? & ? & ?)
    end; apply Hidle; [exact I|..]; assumption.
  - match goal with
    | |- context [on_socket d ?q ?g] =>
        destruct (@mine_on_socket n d q g) as (? & ? & ?)
    end; apply Hidle; [exact I|..]; assumption.
  - match goal with
    | |- context [on_socket d ?q ?g] =>
        destruct (@mine_on_socket n d q g) as (? & ? & ?)
    end; apply Hidle; [exact I|..]; assumption.
  - match goal with
    | |- context [on_socket d ?q ?g] =>
        destruct (@mine_on_socket n d q g) as (? & ? & ?)
    end; apply Hidle; [exact I|..]; assumption.
  - (* Stop *)
    exists s, []. unfold stop. simpl.
    rewrite mine_app, app_nil_r.
    rewrite lookup_app_l by (eapply lookup_lt_Some; exact H).
    split; [exact H|]. split; [|constructor; exact I].
    change [(Stopping (length (stops d)), Log Debug "closing server" None);
            (Stopping (length (stops d)), Destroy)]
      with (map (pair (Stopping (length (stops d))))
                [Log Debug "closing server" None; Destroy]).
    rewrite mine_stopping.
    apply lookup_lt_Some in H.
    destruct (Nat.eqb_spec (length (stops d)) n); [lia|]. apply app_nil_r.
  - (* ServerDestroyed *)
    destruct (Nat.eq_dec n0 n) as [->|Hne].
    + destruct (stage s) eqn:Hst;
        try (unfold destroy_callback; rewrite H, Hst;
             apply Hidle; [right; congruence|..]; auto; fail).
      destruct (@destroy_callback_effect d n s err H Hst) as (E1 & E2 & E3).
      rewrite E1, E2, E3, mine_app, mine_stopping, Nat.eqb_refl.
      eexists _, _. split; [|split; [reflexivity|]].
      * apply list_lookup_insert_eq. eapply lookup_lt_Some; exact H.
      * constructor. exact Hst.
    + assert (Hi : idle n s (ServerDestroyed n0 err)) by (left; exact Hne).
      unfold destroy_callback at 1 2 3.
      destruct (stops d !! n0) as [s0|] eqn:H0; [|apply Hidle; auto].
      destruct (stage s0) eqn:Hst; try (apply Hidle; auto; fail).
      destruct (@destroy_callback_effect d n0 s0 err H0 Hst) as (E1 & E2 & E3).
      unfold destroy_callback in E1, E2, E3. rewrite H0, Hst in E1, E2, E3.
      rewrite E1, E2, E3, mine_app, mine_stopping.
      destruct (Nat.eqb_spec n0 n) as [->|_]; [contradiction|].
      exists s, []. split; [|split; [reflexivity | constructor; exact Hi]].
      rewrite list_lookup_insert_ne by exact Hne. exact H.
  - (* DbClosed *)
    destruct (Nat.eq_dec n0 n) as [->|Hne].
    + destruct (stage s) eqn:Hst;
        try (unfold close_callback; rewrite H, Hst;
             apply Hidle; [right; congruence|..]; auto; fail).
      destruct (@close_callback_effect d n s _ err H Hst) as (E1 & E2 & E3).
      rewrite E1, E2, E3, mine_app, mine_stopping, Nat.eqb_refl.
      eexists _, _. split; [|split; [reflexivity|]].
      * apply list_lookup_insert_eq. eapply lookup_lt_Some; exact H.
      * constructor. exact Hst.
    + assert (Hi : idle n s (DbClosed n0 err)) by (left; exact Hne).
      destruct (stops d !! n0) as [s0|] eqn:H0;
        [|unfold close_callback; rewrite H0; apply Hidle; auto].
      destruct (stage s0) eqn:Hst;
        try (unfold close_callback; rewrite H0, Hst; apply Hidle; auto; fail).
      destruct (@close_callback_effect d n0 s0 _ err H0 Hst) as (E1 & E2 & E3).
      rewrite E1, E2, E3, mine_app, mine_stopping.
      destruct (Nat.eqb_spec n0 n) as [->|_]; [contradiction|].
      exists s, []. split; [|split; [reflexivity | constructor; exact Hi]].
      rewrite list_lookup_insert_ne by exact Hne. exact H.
  - (* Elapse *)
    unfold elapse.
    destruct (fire_timers_lookup (clock d + ms) (stops d) 0 n H) as [L1 L2].
    destruct (fire_timers (clock d + ms) 0 (stops d)) as [ss acts]. simpl in *.
    eexists _, _. split; [exact L1|]. split.
    + rewrite mine_app, L2. reflexivity.
    + constructor.
Qed.

(** A call of [stop] adds its record at the end of the list, stops the
    listener, destroys the open sockets, and logs and destroys the server
    under its own name. *)
Lemma stop_creates (d : daemon) (k : option callback) :
  let n := length (stops d) in
  stops (stop d k) !! n =
    Some {| user_callback := k; stage := Closing_server;
            wrapper := cb_timeout_once (clock d) stop_timeout |} /\
  mine n (trace (stop d k)) =
    mine n (trace d) ++ [Log Debug "closing server" None; Destroy] /\
  clock (stop d k) = clock d /\
  accepting (stop d k) = false /\
  sockets (stop d k) = @socket_destroy _ _ _ <$> sockets d.
Proof.
  simpl. rewrite mine_app.
  change [(Stopping (length (stops d)), Log Debug "closing server" None);
          (Stopping (length (stops d)), Destroy)]
    with (map (pair (Stopping (length (stops d))))
              [Log Debug "closing server" None; Destroy]).
  rewrite mine_stopping, Nat.eqb_refl.
  repeat split. rewrite lookup_app_r by lia.
  rewrite Nat.sub_diag. reflexivity.
Qed.

(** *** Shutdown: what a call of [stop] does, in order *)

(** How often the completion callback was invoked. *)
Fixpoint completions (acts : list action) : nat :=
  match acts with
  | [] => 0
  | Complete _ _ :: rest => S (completions rest)
  | _ :: rest => completions rest
  end.

(** [a] happened, and [b] happened later. *)
Definition precedes (a b : action) (l : list action) : Prop :=
  exists l1 l2 l3, l = l1 ++ a :: l2 ++ b :: l3.

Lemma completions_app (l r : list action) :
  completions (l ++ r) = completions l + completions r.
Proof.
  induction l as [|a l IH]; simpl; [reflexivity|].
  destruct a; simpl; rewrite IH; reflexivity.
Qed.

Lemma precedes_app (a b : action) (l r : list action) :
  precedes a b l -> precedes a b (l ++ r).
Proof.
  intros (l1 & l2 & l3 & ->). exists l1, l2, (l3 ++ r).
  rewrite <- ?app_assoc. simpl. rewrite <- ?app_assoc. reflexivity.
Qed.

Lemma precedes_later (a b : action) (l r1 r2 : list action) :
  In a l -> precedes a b (l ++ r1 ++ b :: r2).
Proof.
  intros H. apply in_split in H as (x & y & ->).
  exists x, (y ++ r1), r2.
  rewrite <- ?app_assoc. simpl. rewrite <- ?app_assoc. reflexivity.
Qed.

Lemma precedes_In_r (a b : action) (l : list action) :
  precedes a b l -> In b l.
Proof.
  intros (l1 & l2 & l3 & ->). apply in_or_app. right. right.
  apply in_or_app. right. left. reflexivity.
Qed.

Definition stop_prologue : list action :=
  [Log Debug "closing server" None; Destroy].

(** What is true of a call [stop(K)] whose timer is due at [T], at time
    [c], given its record [s] and the actions [acts] it took so far. *)
Record good (K : option callback) (T c : nat) (s : stopping)
    (acts : list action) : Prop := {
  good_callback : user_callback s = K;
  good_once : once (wrapper s) = true;
  good_count : completions acts = count (wrapper s);
  good_timer :
    match tid (wrapper s) with
    | Some t => t = T /\ c < T /\ count (wrapper s) = 0 /\
                timedout (wrapper s) = false /\ stage s <> Closed
    | None => count (wrapper s) = 1
    end;
  good_first : exists rest, acts = stop_prologue ++ rest;
  good_order :
    match stage s with
    | Closing_server => ~ In CloseDb acts /\ ~ In (Emit close) acts
    | Closing_db _ => precedes Destroy CloseDb acts /\ ~ In (Emit close) acts
    | Closed => precedes Destroy CloseDb acts /\
                precedes CloseDb (Emit close) acts
    end;
  good_complete :
    forall k e, In (Complete k e) acts ->
      k = K /\
      (e = Some (TimeoutError stop_timeout) \/
       precedes (Emit close) (Complete k e) acts)
}.

Lemma good_In_destroy K T c s acts : good K T c s acts -> In Destroy acts.
Proof. intros [_ _ _ _ [rest ->] _ _]. simpl. auto. Qed.

Lemma good_stop (c : nat) (k : option callback) :
  good k (c + stop_timeout) c
       {| user_callback := k; stage := Closing_server;
          wrapper := cb_timeout_once c stop_timeout |}
       stop_prologue.
Proof.
  split; simpl; auto.
  - repeat split; auto; try discriminate. unfold stop_timeout. lia.
  - exists []. reflexivity.
  - split; intros [H|[H|[]]]; discriminate H.
  - intros k' e [H|[H|[]]]; discriminate H.
Qed.

Lemma destroy_log_plain (err : option error) :
  completions [destroy_log err] = 0 /\ destroy_log err <> Emit close /\
  (forall k e, destroy_log err <> Complete k e).
Proof. destruct err; simpl; repeat split; intros; discriminate. Qed.

Lemma close_log_plain (err : option error) :
  completions [close_log err] = 0 /\
  (forall k e, close_log err <> Complete k e).
Proof. destruct err; simpl; repeat split; intros; discriminate. Qed.

Lemma good_moves (n : nat) (K : option callback) (T c c' : nat)
    (s s' : stopping) (ev : event) (new acts : list action) :
  stop_moves n c s ev c' s' new -> good K T c s acts ->
  good K T c' s' (acts ++ new) /\ c <= c'.
Proof.
  intros Hm G. pose proof (good_In_destroy G) as HD.
  destruct G as [Gk Go Gc Gt [rest Gf] Gord Gcomp].
  destruct Hm as [ev _|err Hst|e1 err Hst|ms].
  - rewrite app_nil_r. split; [|lia]. split; eauto.
  - (* the server was destroyed *)
    destruct (destroy_log_plain err) as (L1 & L2 & L3).
    rewrite Hst in Gord. destruct Gord as [GC GE].
    split; [|lia]. split; simpl; auto.
    + rewrite completions_app. change [destroy_log err; CloseDb]
        with ([destroy_log err] ++ [CloseDb]).
      rewrite completions_app, L1. simpl. lia.
    + destruct (tid (wrapper s)); [|exact Gt].
      destruct Gt as (? & ? & ? & ? & _). repeat split; auto; discriminate.
    + exists (rest ++ [destroy_log err; CloseDb]).
      rewrite Gf, <- app_assoc. reflexivity.
    + split.
      * apply (@precedes_later Destroy CloseDb acts [destroy_log err] []), HD.
      * intros H. apply in_app_or in H as [H|[H|[H|[]]]];
          [auto | congruence | discriminate H].
    + intros k e H. apply in_app_or in H as [H|[H|[H|[]]]].
      * destruct (Gcomp k e H) as [E [E'|E']]; split; auto.
        right. apply precedes_app, E'.
      * exfalso. exact (L3 _ _ H).
      * discriminate H.
  - (* the store was closed *)
    destruct (close_log_plain err) as (L1 & L3).
    rewrite Hst in Gord. destruct Gord as [GC GE].
    assert (Hcall :
      (tid (wrapper s) <> None /\ snd (cb_call (wrapper s)) = true /\
       count (fst (cb_call (wrapper s))) = 1 /\
       tid (fst (cb_call (wrapper s))) = None /\
       once (fst (cb_call (wrapper s))) = true) \/
      (tid (wrapper s) = None /\ cb_call (wrapper s) = (wrapper s, false))).
    { unfold cb_call. destruct (tid (wrapper s)) as [t|] eqn:Ht.
      - left. destruct Gt as (_ & _ & G0 & Gto & _).
        rewrite Gto, Go, G0. simpl. repeat split; auto; discriminate.
      - right. rewrite Go, Gt. simpl. rewrite orb_true_r. auto. }
    split; [|lia].
    destruct Hcall as [(Ht & Hinv & Hcnt & Htid & Honce) | (Ht & Hcb)].
    + rewrite Hinv. split; simpl; auto.
      * rewrite completions_app.
        change (close_log err :: Emit close ::
                [Complete (user_callback s) (js_or e1 err)])
          with ([close_log err] ++ [Emit close;
                 Complete (user_callback s) (js_or e1 err)]).
        rewrite completions_app, L1, Hcnt. simpl.
        destruct (tid (wrapper s)); [|congruence].
        destruct Gt as (_ & _ & G0 & _). lia.
      * rewrite Htid. exact Hcnt.
      * eexists. rewrite Gf, <- app_assoc. reflexivity.
      * split; [apply precedes_app, GC|].
        apply (@precedes_later CloseDb (Emit close) acts [close_log err]
                 [Complete (user_callback s) (js_or e1 err)]).
        eapply precedes_In_r, GC.
      * intros k e H. apply in_app_or in H as [H|[H|[H|[H|[]]]]].
        -- destruct (Gcomp k e H) as [E [E'|E']]; split; auto.
           right. apply precedes_app, E'.
        -- exfalso. exact (L3 _ _ H).
        -- discriminate H.
        -- injection H as <- <-. split; [exact Gk|]. right.
           exists (acts ++ [close_log err]), [], [].
           rewrite <- app_assoc. reflexivity.
    + rewrite Hcb. simpl. split; simpl; auto.
      * rewrite completions_app.
        change [close_log err; Emit close]
          with ([close_log err] ++ [Emit close]).
        rewrite completions_app, L1. simpl. lia.
      * rewrite Ht in *. exact Gt.
      * eexists. rewrite Gf, <- app_assoc. reflexivity.
      * split; [apply precedes_app, GC|].
        apply (@precedes_later CloseDb (Emit close) acts [close_log err] []).
        eapply precedes_In_r, GC.
      * intros k e H. apply in_app_or in H as [H|[H|[H|[]]]].
        -- destruct (Gcomp k e H) as [E [E'|E']]; split; auto.
           right. apply precedes_app, E'.
        -- exfalso. exact (L3 _ _ H).
        -- discriminate H.
  - (* time passes *)
    split; [|lia]. unfold fire_timer.
    destruct (tid (wrapper s)) as [t|] eqn:Ht.
    + destruct Gt as (-> & Hc & G0 & Gto & Gst).
      destruct (Nat.leb_spec T (c + ms)) as [Hdue|Hnot].
      * unfold cb_timer, cb_call. rewrite Gto, Go, G0. simpl.
        split; simpl; auto.
        -- rewrite completions_app, Gc, G0. reflexivity.
        -- eexists. rewrite Gf, <- app_assoc. reflexivity.
        -- destruct (stage s); destruct Gord as [O1 O2]; split;
             try (apply precedes_app; assumption);
             intros H; apply in_app_or in H as [H|[H|[]]];
             try contradiction; discriminate H.
        -- intros k e H. apply in_app_or in H as [H|[H|[]]].
           ++ destruct (Gcomp k e H) as [E [E'|E']]; split; auto.
              right. apply precedes_app, E'.
           ++ injection H as <- <-. auto.
      * simpl. rewrite app_nil_r. split; auto.
        -- rewrite Ht. repeat split; auto.
        -- eauto.
    + simpl. rewrite app_nil_r. split; auto.
      * rewrite Ht. exact Gt.
      * eauto.
Qed.

(** Along every run the record of a call of [stop] stays [good]. *)
Lemma run_good (n : nat) (K : option callback) (T : nat)
    (base : list action) (evs : list event) :
  forall (d : daemon) (s : stopping) (acts : list action),
    stops d !! n = Some s ->
    mine n (trace d) = base ++ acts ->
    good K T (clock d) s acts ->
    exists s' acts',
      stops (run d evs) !! n = Some s' /\
      mine n (trace (run d evs)) = base ++ acts' /\
      good K T (clock (run d evs)) s' acts' /\
      clock d <= clock (run d evs).
Proof.
  induction evs as [|ev evs IH]; intros d s acts Hs Hm G.
  - exists s, acts. auto.
  - destruct (@step_stopping ev d n s Hs) as (s1 & new & Hs1 & Hm1 & Hmv).
    destruct (good_moves Hmv G) as [G1 Hc].
    rewrite Hm, <- app_assoc in Hm1.
    destruct (IH _ _ _ Hs1 Hm1 G1) as (s' & acts' & ? & ? & ? & ?).
    change (run d (ev :: evs)) with (run (step d ev) evs).
    exists s', acts'. split; [|split; [|split]]; auto.
    eapply Nat.le_trans; eassumption.
Qed.

(** C6: the completion callback of every call of [stop] is invoked at
    most once, whatever happens afterwards (further calls of [stop]
    included), and exactly once as soon as either the store has been
    closed or 5000 ms have passed since the call, also when the server or
    the store never reports back; the callback invoked is the one given to
    that call. *)
Theorem stop_completes_exactly_once (d : daemon) (k : option callback)
    (evs : list event) :
  let n := length (stops d) in
  let d' := run (stop d k) evs in
  exists acts,
    mine n (trace d') = mine n (trace d) ++ acts /\
    completions acts <= 1 /\
    (clock d + stop_timeout <= clock d' -> completions acts = 1) /\
    (forall s, stops d' !! n = Some s -> stage s = Closed ->
               completions acts = 1) /\
    (forall k' e, In (Complete k' e) acts -> k' = k).
Proof.
  intros n d'.
  destruct (stop_creates d k) as (Hs & Hm & Hc & _).
  pose proof (good_stop (clock d) k) as G. rewrite <- Hc in G at 2.
  destruct (@run_good n k (clock d + stop_timeout) (mine n (trace d)) evs
              (stop d k) _ _ Hs Hm G)
    as (s' & acts & Hs' & Hm' & [Gk Go Gc Gt Gf Gord Gcomp] & _).
  fold d' in Hs', Hm', Gt. exists acts. split; [exact Hm'|].
  split; [|split; [|split]].
  - rewrite Gc. destruct (tid (wrapper s')); [|lia].
    destruct Gt as (_ & _ & -> & _). lia.
  - intros Hlate. rewrite Gc. destruct (tid (wrapper s')); [|exact Gt].
    destruct Gt as (_ & Hlt & _). lia.
  - intros s Hs2 Hst. rewrite Hs' in Hs2. injection Hs2 as <-.
    rewrite Gc. destruct (tid (wrapper s')); [|exact Gt].
    destruct Gt as (_ & _ & _ & _ & Hne). contradiction.
  - intros k' e H. apply (Gcomp k' e H).
Qed.

(** *** Shutdown: the whole course of a call of [stop] *)

(** What the server and the store have reported back: the outcome of the
    server's [destroy] and the outcome of the store's [close], each an
    error or none, if they have reported at all. *)
Definition reported : Type :=
  (option (option error) * option (option error))%type.

(** What they have reported back to the [n]-th call of [stop] in the
    course of events: the first [ServerDestroyed n] counts, and the first
    [DbClosed n] after it. *)
Definition report (n : nat) (r : reported) (ev : event) : reported :=
  match r, ev with
  | (None, None), ServerDestroyed m e => if m =? n then (Some e, None) else r
  | (Some e1, None), DbClosed m e => if m =? n then (Some e1, Some e) else r
  | _, _ => r
  end.

Definition reports (n : nat) (evs : list event) : reported :=
  fold_left (report n) evs (None, None).

(** Whether the 5000 ms timer of the call has fired, and if so whether
    the server had reported back by then. *)
Inductive fired := Not_fired | Fired_closing_server | Fired_closing_db.

Definition timeout_call (k : option callback) : action :=
  Complete k (Some (TimeoutError stop_timeout)).

(** All that a call [stop(k)] has done, in order, given what has been
    reported back to it and when its timer fired. *)
Definition script (k : option callback) (tm : fired) (r : reported)
  : list action :=
  stop_prologue ++
  (match tm with Fired_closing_server => [timeout_call k] | _ => [] end) ++
  (match fst r with
   | None => []
   | Some e1 =>
       [destroy_log e1; CloseDb] ++
       (match tm with Fired_closing_db => [timeout_call k] | _ => [] end) ++
       (match snd r with
        | None => []
        | Some e2 =>
            [close_log e2; Emit close] ++
            (match tm with
             | Not_fired => [Complete k (js_or e1 e2)]
             | _ => []
             end)
        end)
   end).

Definition stage_of (r : reported) : phase :=
  match r with
  | (None, _) => Closing_server
  | (Some e1, None) => Closing_db e1
  | (Some _, Some _) => Closed
  end.

(** The record [s] and the actions [acts] of a call [stop(K)] whose timer
    is due at [T], at time [c], follow the script. *)
Record scripted (K : option callback) (T c : nat) (s : stopping)
    (tm : fired) (r : reported) (acts : list action) : Prop := {
  sc_acts : acts = script K tm r;
  sc_stage : stage s = stage_of r;
  sc_store : fst r = None -> snd r = None;
  sc_fired :
    match tm with
    | Not_fired =>
        timedout (wrapper s) = false /\
        (snd r = None -> tid (wrapper s) <> None)
    | Fired_closing_server => timedout (wrapper s) = true /\ T <= c
    | Fired_closing_db =>
        timedout (wrapper s) = true /\ T <= c /\ fst r <> None
    end
}.

Lemma report_idle (n : nat) (s : stopping) (r : reported) (ev : event) :
  idle n s ev -> stage s = stage_of r -> report n r ev = r.
Proof.
  intros Hi Hs. destruct r as [[e1|] [e2|]]; destruct ev; simpl in *;
    try reflexivity; try contradiction;
    destruct (Nat.eqb_spec n0 n) as [->|Hne]; try reflexivity;
    destruct Hi as [Hi|Hi]; try contradiction; exfalso;
    try (exact (Hi _ Hs)); eauto.
Qed.

Lemma report_done (n : nat) (r : reported) (ev : event) :
  snd r <> None -> snd (report n r ev) <> None.
Proof.
  destruct r as [[e1|] [e2|]]; destruct ev; simpl; intros H;
    first [exfalso; apply H; reflexivity | exact H].
Qed.

Lemma reports_done (n : nat) (evs : list event) : forall r : reported,
  snd r <> None -> snd (fold_left (report n) evs r) <> None.
Proof.
  induction evs as [|ev evs IH]; intros r H; simpl; [exact H|].
  apply IH, report_done, H.
Qed.

Lemma scripted_stop (c : nat) (k : option callback) :
  scripted k (c + stop_timeout) c
           {| user_callback := k; stage := Closing_server;
              wrapper := cb_timeout_once c stop_timeout |}
           Not_fired (None, None) stop_prologue.
Proof. split; simpl; auto. Qed.

(** Every move of a call of [stop] follows the script. *)
Lemma scripted_moves (n : nat) (K : option callback) (T c c' : nat)
    (s s' : stopping) (ev : event) (new acts : list action)
    (tm : fired) (r : reported) :
  stop_moves n c s ev c' s' new -> good K T c s acts ->
  scripted K T c s tm r acts ->
  exists tm',
    scripted K T c' s' tm' (report n r ev) (acts ++ new) /\
    (tm <> Not_fired \/ snd (report n r ev) <> None -> tm' = tm).
Proof.
  intros Hm [Gk Go Gc Gt _ _ _] [Sa Ss Sst Sf].
  destruct Hm as [ev Hi|err Hst|e1 err Hst|ms].
  - (* nothing of this call *)
    exists tm. rewrite (@report_idle n s r ev Hi Ss), app_nil_r.
    split; [split; assumption | reflexivity].
  - (* the server was destroyed *)
    exists tm. split; [|reflexivity].
    rewrite Hst in Ss.
    destruct r as [[e1|] [e2|]]; simpl in Ss; try discriminate Ss;
      [specialize (Sst eq_refl); discriminate Sst|].
    simpl. rewrite Nat.eqb_refl.
    destruct tm; simpl in Sf; try (exfalso; tauto);
      (split; simpl; auto; rewrite Sa; reflexivity).
  - (* the store was closed *)
    exists tm. split; [|reflexivity].
    rewrite Hst in Ss.
    destruct r as [[e0|] [e2|]]; simpl in Ss; try discriminate Ss.
    injection Ss as <-. simpl. rewrite Nat.eqb_refl.
    destruct tm; simpl in Sf.
    + destruct Sf as [Sto Stid]. specialize (Stid eq_refl).
      destruct (tid (wrapper s)) as [t|] eqn:Ht; [|contradiction].
      destruct Gt as (_ & _ & G0 & _).
      unfold cb_call. rewrite Sto, Go, G0. simpl.
      split; simpl; auto; try discriminate.
      rewrite Sa, Gk. reflexivity.
    + destruct Sf as [Sto Hle].
      unfold cb_call. rewrite Sto. simpl.
      split; simpl; auto; try discriminate. rewrite Sa. reflexivity.
    + destruct Sf as (Sto & Hle & Hne).
      unfold cb_call. rewrite Sto. simpl.
      split; simpl; auto; try discriminate. rewrite Sa. reflexivity.
  - (* time passes *)
    assert (Hr : report n r (Elapse ms) = r)
      by (destruct r as [[e1|] [e2|]]; reflexivity).
    rewrite Hr. unfold fire_timer.
    destruct (tid (wrapper s)) as [t|] eqn:Ht.
    + destruct Gt as (-> & Hc & G0 & Gto & Gst).
      assert (Htm : tm = Not_fired).
      { destruct tm; [reflexivity| |]; simpl in Sf;
          destruct Sf as [Sto _]; congruence. }
      subst tm. simpl in Sf.
      assert (Hsto : snd r = None).
      { destruct r as [[e1|] [e2|]]; simpl in *; auto; congruence. }
      destruct (Nat.leb_spec T (c + ms)) as [Hdue|Hnot].
      * unfold cb_timer, cb_call. rewrite Gto, Go, G0. simpl.
        exists (match fst r with
                | None => Fired_closing_server
                | Some _ => Fired_closing_db
                end).
        split; [|intros [H|H]; [congruence | contradiction]].
        destruct r as [[e1|] [e2|]]; simpl in *; try discriminate Hsto;
          split; simpl; auto; rewrite Sa, Gk; reflexivity.
      * simpl. rewrite app_nil_r. exists Not_fired.
        split; [split; simpl; auto | reflexivity].
        rewrite Ht. split; [exact Gto | discriminate].
    + simpl. rewrite app_nil_r. exists tm. split; [|reflexivity].
      split; auto. destruct tm; simpl in *; intuition lia.
Qed.

(** Along every run a call of [stop] follows the script, and its timer
    does not fire twice, nor after the store has reported back. *)
Lemma run_scripted (n : nat) (K : option callback) (T : nat)
    (base : list action) (evs : list event) :
  forall (d : daemon) (s : stopping) (acts : list action)
         (tm : fired) (r : reported),
    stops d !! n = Some s ->
    mine n (trace d) = base ++ acts ->
    good K T (clock d) s acts ->
    scripted K T (clock d) s tm r acts ->
    exists s' acts' tm',
      stops (run d evs) !! n = Some s' /\
      mine n (trace (run d evs)) = base ++ acts' /\
      good K T (clock (run d evs)) s' acts' /\
      scripted K T (clock (run d evs)) s' tm'
               (fold_left (report n) evs r) acts' /\
      (tm <> Not_fired \/ snd r <> None -> tm' = tm).
Proof.
  induction evs as [|ev evs IH]; intros d s acts tm r Hs Hm G S.
  - exists s, acts, tm. simpl. auto.
  - destruct (@step_stopping ev d n s Hs) as (s1 & new & Hs1 & Hm1 & Hmv).
    destruct (good_moves Hmv G) as [G1 Hc].
    destruct (scripted_moves Hmv G S) as (tm1 & S1 & Hst1).
    rewrite Hm, <- app_assoc in Hm1.
    destruct (IH _ _ _ _ _ Hs1 Hm1 G1 S1)
      as (s' & acts' & tm' & ? & ? & ? & ? & Hst).
    change (run d (ev :: evs)) with (run (step d ev) evs).
    exists s', acts', tm'. split; [|split; [|split; [|split]]]; auto.
    intros Hfix. assert (E : tm1 = tm).
    { apply Hst1. destruct Hfix as [Hfix|Hfix]; [left; exact Hfix|].
      right. apply report_done, Hfix. }
    rewrite <- E. apply Hst. destruct Hfix as [Hfix|Hfix].
    + left. rewrite E. exact Hfix.
    + right. apply report_done, Hfix.
Qed.

(** The course of a call [stop(k)] from the moment it is made. *)
Lemma stop_scripted (d : daemon) (k : option callback) (evs : list event) :
  let n := length (stops d) in
  let d' := run (stop d k) evs in
  let T := clock d + stop_timeout in
  exists s' acts tm,
    stops d' !! n = Some s' /\
    mine n (trace d') = mine n (trace d) ++ acts /\
    good k T (clock d') s' acts /\
    scripted k T (clock d') s' tm (reports n evs) acts.
Proof.
  intros n d' T.
  destruct (stop_creates d k) as (Hs & Hm & Hc & _).
  pose proof (good_stop (clock d) k) as G. rewrite <- Hc in G at 2.
  pose proof (scripted_stop (clock d) k) as S. rewrite <- Hc in S at 2.
  destruct (@run_scripted n k T (mine n (trace d)) evs
              (stop d k) _ _ _ _ Hs Hm G S)
    as (s' & acts & tm & Hs' & Hm' & G' & S' & _).
  exists s', acts, tm. auto.
Qed.

(** What the script contains. *)
Lemma script_asks_store (k : option callback) (tm : fired) (r : reported) :
  In CloseDb (script k tm r) <-> fst r <> None.
Proof.
  destruct r as [[[e1|]|] [[e2|]|]]; destruct tm; simpl; split;
    intros H; try discriminate;
    repeat (destruct H as [H|H]; try discriminate H);
    try contradiction; auto 10.
Qed.

Lemma script_emits_close (k : option callback) (tm : fired) (r : reported) :
  (fst r = None -> snd r = None) ->
  In (Emit close) (script k tm r) <-> snd r <> None.
Proof.
  intros Hs.
  destruct r as [[[e1|]|] [[e2|]|]]; destruct tm; simpl in *; split;
    intros H; try discriminate; try (specialize (Hs eq_refl); discriminate);
    repeat (destruct H as [H|H]; try discriminate H);
    try contradiction; auto 10.
Qed.

(** *** Shutdown: the listener *)

(** Any event but a [listen] callback that reports success. *)
Definition not_listened (ev : event) : Prop :=
  match ev with
  | Listened (inr _) => False
  | _ => True
  end.

Lemma accepting_fold_start (l : list (option callback)) : forall d : daemon,
  accepting (fold_left (@start _ _ _ _) l d) = accepting d.
Proof.
  induction l as [|k l IH]; intros d; simpl; [reflexivity|].
  rewrite IH. unfold start. destruct (negb (db_open d)); reflexivity.
Qed.

Lemma accepting_on_socket (d : daemon) (p : peer)
    (f : conn -> conn * list action) :
  accepting (on_socket d p f) = accepting d.
Proof.
  unfold on_socket. destruct (sockets d !! p) as [c|]; [|reflexivity].
  destruct (f c). reflexivity.
Qed.

(** While the listener is closed it stays closed and no connection is
    added, until a [listen] callback reports success. *)
Lemma closed_step (ev : event) (d : daemon) :
  accepting d = false -> not_listened ev ->
  accepting (step d ev) = false /\
  forall p, sockets d !! p = None -> sockets (step d ev) !! p = None.
Proof.
  intros Ha Hn. split.
  - destruct ev; cbn [Server.step]; rewrite ?accepting_on_socket; auto.
    + unfold start. destruct (negb (db_open d)); exact Ha.
    + unfold db_ready. rewrite accepting_fold_start. exact Ha.
    + unfold listen_callback. destruct (listens d); [exact Ha|].
      destruct res; [exact Ha | contradiction].
    + rewrite Ha. exact Ha.
    + unfold on_handle. destruct (sockets d !! p); [|exact Ha].
      destruct (handle_step handle (db d) c) as [[? ?] ?]. exact Ha.
    + unfold destroy_callback. destruct (stops d !! n); [|exact Ha].
      destruct (stage s); exact Ha.
    + unfold close_callback. destruct (stops d !! n); [|exact Ha].
      destruct (stage s); try exact Ha.
      destruct (cb_call (wrapper s)). destruct err; exact Ha.
    + unfold elapse. destruct (fire_timers (clock d + ms) 0 (stops d)).
      exact Ha.
  - intros p Hp. destruct (step_new_conn ev _ _ Hp) as [H|H]; [exact H|].
    exfalso. destruct ev; cbn [Server.step] in H;
      try (rewrite on_socket_absent in H by exact Hp; discriminate H).
    + unfold start in H. destruct (negb (db_open d)); simpl in H; congruence.
    + unfold db_ready in H.
      rewrite (proj1 (sockets_fold_start _ _)) in H. simpl in H. congruence.
    + simpl in H. congruence.
    + simpl in H. congruence.
    + simpl in H. congruence.
    + unfold listen_callback in H. destruct (listens d); [congruence|].
      destruct res; simpl in H; congruence.
    + rewrite Ha in H. congruence.
    + unfold on_handle in H. destruct (sockets d !! p0) as [c0|] eqn:Hq;
        [|congruence].
      destruct (handle_step handle (db d) c0) as [[? ?] ?]. simpl in H.
      rewrite lookup_insert_ne in H by congruence. congruence.
    + unfold stop in H. simpl in H. rewrite lookup_fmap, Hp in H.
      discriminate H.
    + unfold destroy_callback in H. destruct (stops d !! n); [|congruence].
      destruct (stage s); simpl in H; congruence.
    + unfold close_callback in H. destruct (stops d !! n); [|congruence].
      destruct (stage s); try congruence.
      destruct (cb_call (wrapper s)). destruct err; simpl in H; congruence.
    + unfold elapse in H.
      destruct (fire_timers (clock d + ms) 0 (stops d)). simpl in H.
      congruence.
Qed.

Lemma closed_run (evs : list event) : forall d : daemon,
  accepting d = false -> Forall not_listened evs ->
  accepting (run d evs) = false /\
  forall p, sockets d !! p = None -> sockets (run d evs) !! p = None.
Proof.
  induction evs as [|ev evs IH]; intros d Ha Hn; [auto|].
  inversion Hn as [|? ? Hn1 Hn2]; subst.
  destruct (@closed_step ev d Ha Hn1) as [Ha1 Hs1].
  destruct (IH (step d ev) Ha1 Hn2) as [Ha2 Hs2].
  change (run d (ev :: evs)) with (run (step d ev) evs). auto.
Qed.

(** C5 (amended): a call of [stop] closes the listener and destroys every
    open socket at once, without waiting for responses in flight; no
    connection is accepted afterwards, unless a [listen] callback reports
    success later.  What the call does after that follows the script: the
    store is asked to close when, and only when, the callback of the
    server's [destroy] has run; ['close'] is emitted when, and only when,
    the callback of the store's [close] has then run; the completion
    callback is invoked right after ['close'], unless it is the 5000 ms
    timer that invoked it before (with a [TimeoutError]), which may
    happen before the store is closed or even asked to close. *)
Theorem shutdown_order (d : daemon) (k : option callback) (evs : list event) :
  let n := length (stops d) in
  let d' := run (stop d k) evs in
  let r := reports n evs in
  accepting (stop d k) = false /\
  (forall p c, sockets d !! p = Some c ->
               sockets (stop d k) !! p = Some (socket_destroy c)) /\
  (Forall not_listened evs ->
   accepting d' = false /\
   forall p, sockets d !! p = None -> sockets d' !! p = None) /\
  exists tm acts,
    mine n (trace d') = mine n (trace d) ++ acts /\
    acts = script k tm r /\
    (In CloseDb acts <-> fst r <> None) /\
    (In (Emit close) acts <-> snd r <> None) /\
    (In CloseDb acts -> precedes Destroy CloseDb acts) /\
    (In (Emit close) acts -> precedes CloseDb (Emit close) acts) /\
    (forall k' e, In (Complete k' e) acts ->
       e = Some (TimeoutError stop_timeout) \/
       precedes (Emit close) (Complete k' e) acts).
Proof.
  intros n d' r.
  destruct (stop_creates d k) as (Hs & Hm & Hc & Ha & Hsock).
  split; [exact Ha|]. split.
  { intros p c Hp. rewrite Hsock, lookup_fmap, Hp. reflexivity. }
  split.
  { intros Hn. destruct (@closed_run evs (stop d k) Ha Hn) as [H1 H2].
    split; [exact H1|]. intros p Hp. apply H2.
    rewrite Hsock, lookup_fmap, Hp. reflexivity. }
  destruct (stop_scripted d k evs)
    as (s' & acts & tm & Hs' & Hm' & [Gk Go Gc Gt Gf Gord Gcomp]
        & [Sa Ss Sst Sf]).
  exists tm, acts. split; [exact Hm'|]. split; [exact Sa|].
  split; [rewrite Sa; apply script_asks_store|].
  split; [rewrite Sa; apply script_emits_close, Sst|].
  split; [|split].
  - intros H. destruct (stage s'); destruct Gord as [O1 O2]; tauto.
  - intros H. destruct (stage s'); destruct Gord as [O1 O2]; tauto.
  - intros k' e H. apply (Gcomp k' e H).
Qed.

(** *** Shutdown: the errors of the two closes *)

Lemma run_step_run (d : daemon) (evs1 : list event) (ev : event)
    (evs2 : list event) :
  run d (evs1 ++ ev :: evs2) = run (step (run d evs1) ev) evs2.
Proof. rewrite run_app. reflexivity. Qed.

Lemma reports_snoc (n : nat) (evs : list event) (ev : event) :
  reports n (evs ++ [ev]) = report n (reports n evs) ev.
Proof. unfold reports. rewrite fold_left_app. reflexivity. Qed.

Lemma reports_split (n : nat) (evs1 : list event) (ev : event)
    (evs2 : list event) :
  reports n (evs1 ++ ev :: evs2) =
  fold_left (report n) evs2 (report n (reports n evs1) ev).
Proof. unfold reports. rewrite fold_left_app. reflexivity. Qed.

(** C10 (amended): whatever the closes report and whenever, a call of
    [stop] follows the script.  A failure of the server's [destroy] or
    of the store's [close] is only logged, at error level: the store is
    asked to close all the same, and ['close'] is emitted whenever the
    store's close reports back, failed or not (and not before).  The
    completion callback gets the server-close error if there was one and
    otherwise the store-close error (nothing when both succeeded)
    exactly when the store reported back before the 5000 ms timer of the
    call was due; otherwise the timer invokes it with a [TimeoutError],
    the close callbacks do not invoke it again and the errors of the
    closes never reach it. *)
Theorem close_errors_reach_callback (d : daemon) (k : option callback)
    (evs : list event) :
  let n := length (stops d) in
  let d' := run (stop d k) evs in
  let r := reports n evs in
  exists tm,
    mine n (trace d') = mine n (trace d) ++ script k tm r /\
    (snd r = None ->
     (tm = Not_fired <-> clock d' < clock d + stop_timeout)) /\
    (forall evs1 ev evs2, evs = evs1 ++ ev :: evs2 ->
       snd (reports n evs1) = None ->
       snd (reports n (evs1 ++ [ev])) <> None ->
       (tm = Not_fired <->
        clock (run (stop d k) evs1) < clock d + stop_timeout)).
Proof.
  intros n d' r. subst n d' r.
  assert (Hnow : forall evs0 s0 acts0 tm0,
    good k (clock d + stop_timeout) (clock (run (stop d k) evs0)) s0 acts0 ->
    scripted k (clock d + stop_timeout) (clock (run (stop d k) evs0)) s0 tm0
             (reports (length (stops d)) evs0) acts0 ->
    snd (reports (length (stops d)) evs0) = None ->
    (tm0 = Not_fired <->
     clock (run (stop d k) evs0) < clock d + stop_timeout)).
  { intros evs0 s0 acts0 tm0 [_ _ _ Gt _ _ _] [_ _ _ Sf] Hnone.
    destruct tm0; simpl in Sf.
    - destruct Sf as [_ Htid]. specialize (Htid Hnone).
      destruct (tid (wrapper s0)); [|contradiction].
      destruct Gt as (_ & Hlt & _). tauto.
    - destruct Sf as [_ Hle]. split; [discriminate | lia].
    - destruct Sf as (_ & Hle & _). split; [discriminate | lia]. }
  destruct (stop_scripted d k evs)
    as (s' & acts & tm & Hs' & Hm' & G & S).
  exists tm. split; [rewrite <- (sc_acts S); exact Hm'|].
  split; [exact (Hnow evs s' acts tm G S)|].
  intros evs1 ev evs2 -> Hnone Hsome.
  destruct (stop_scripted d k evs1)
    as (s1 & acts1 & tm1 & Hs1 & Hm1 & G1 & S1).
  rewrite <- (Hnow evs1 s1 acts1 tm1 G1 S1 Hnone).
  (* the timer cannot fire from the report of the store on *)
  destruct (@run_scripted (length (stops d)) k (clock d + stop_timeout) (mine (length (stops d)) (trace d))
              (ev :: evs2) _ _ _ _ _ Hs1 Hm1 G1 S1)
    as (s2 & acts2 & tm2 & Hs2 & Hm2 & G2 & S2 & _).
  destruct (@step_stopping ev _ (length (stops d)) s1 Hs1) as (sa & new & Hsa & Hma & Hmv).
  destruct (good_moves Hmv G1) as [Ga _].
  destruct (scripted_moves Hmv G1 S1) as (tma & Sa & Hsta).
  rewrite reports_snoc in Hsome.
  assert (Ea : tma = tm1) by (apply Hsta; right; exact Hsome).
  rewrite Hm1, <- app_assoc in Hma.
  destruct (@run_scripted (length (stops d)) k (clock d + stop_timeout) (mine (length (stops d)) (trace d))
              evs2 _ _ _ _ _ Hsa Hma Ga Sa)
    as (s3 & acts3 & tm3 & Hs3 & Hm3 & G3 & S3 & Hst3).
  assert (E3 : tm3 = tma) by (apply Hst3; right; exact Hsome).
  (* both describe the same run *)
  assert (Hacts : acts = acts3).
  { rewrite run_step_run in Hm'.
    rewrite Hm3 in Hm'. apply app_inv_head in Hm'. auto. }
  assert (Etm : tm = tm3).
  { pose proof (sc_acts S) as A. pose proof (sc_acts S3) as A3.
    rewrite Hacts in A. rewrite A3 in A.
    fold (reports (length (stops d)) (evs1 ++ ev :: evs2)) in A.
    rewrite reports_split in A.
    pose proof (@reports_done (length (stops d)) evs2 _ Hsome) as Hdone.
    pose proof (sc_store S3) as St3.
    destruct (fold_left (report (length (stops d))) evs2
                (report (length (stops d)) (reports (length (stops d)) evs1) ev))
      as [[e1|] [e2|]]; simpl in *;
      try contradiction; try (specialize (St3 eq_refl); discriminate).
    destruct tm, tm3; simpl in A; try reflexivity; discriminate A. }
  rewrite Etm, E3, Ea. reflexivity.
Qed.

(** *** Startup *)

Lemma fold_start_open (l : list (option callback)) : forall d : daemon,
  db_open d = true ->
  let d' := fold_left (@start _ _ _ _) l d in
  db_open d' = true /\ ready_once d' = ready_once d /\
  listens d' = listens d ++ l /\ settings d' = settings d /\
  accepting d' = accepting d /\ server_address d' = server_address d /\
  trace d' =
    trace d ++
    map (fun _ => (Daemon, Listen (port (settings d)) (hostname (settings d)))) l.
Proof.
  induction l as [|k l IH]; intros d Ho; simpl.
  - rewrite !app_nil_r. auto 10.
  - assert (Hs : start d k =
               act (set_listens d (listens d ++ [k])) Daemon
                   [Listen (port (settings d)) (hostname (settings d))])
      by (unfold start; rewrite Ho; reflexivity).
    rewrite Hs.
    destruct (IH (act (set_listens d (listens d ++ [k])) Daemon
                      [Listen (port (settings d)) (hostname (settings d))]) Ho)
      as (I1 & I2 & I3 & I4 & I5 & I6 & I7).
    rewrite I1, I2, I3, I4, I5, I6, I7. simpl.
    rewrite <- !app_assoc. auto 10.
Qed.

(** C7: a call of [start] made while the store is not open does nothing
    but park a one-shot ['ready'] listener: nothing is logged, emitted or
    called back, and the server is not asked to listen.  When the store
    then emits ['ready'], the parked calls run again, in order, and each
    asks the server to listen.  When the listen of such a call succeeds,
    the daemon logs, emits ['started'] with the bound address and calls
    [done] with that address. *)
Theorem start_waits_for_ready (d : daemon) (done : option callback) :
  db_open d = false ->
  let d1 := step d (Start done) in
  let d2 := step d1 DbReady in
  (trace d1 = trace d /\ listens d1 = listens d /\
   accepting d1 = accepting d /\ server_address d1 = server_address d /\
   ready_once d1 = ready_once d ++ [done]) /\
  (db_open d2 = true /\ ready_once d2 = [] /\
   listens d2 = listens d ++ ready_once d ++ [done] /\
   accepting d2 = accepting d /\
   trace d2 =
     trace d ++
     (Daemon, Log Info "Database ready." None) ::
     map (fun _ => (Daemon, Listen (port (settings d)) (hostname (settings d))))
         (ready_once d ++ [done])) /\
  (forall (d3 : daemon) (rest : list (option callback)) (a : address),
     listens d3 = done :: rest ->
     let d4 := step d3 (Listened (inr a)) in
     accepting d4 = true /\ server_address d4 = Some a /\ listens d4 = rest /\
     trace d4 =
       trace d3 ++
       [(Daemon, Log Info "server started" None); (Daemon, Emit (started a))] ++
       match done with
       | Some k => [(Daemon, Done k None (Some a))]
       | None => []
       end).
Proof.
  intros Ho. cbn [Server.step].
  assert (Hstart : start d done = set_ready_once d (ready_once d ++ [done]))
    by (unfold start; rewrite Ho; reflexivity).
  rewrite Hstart. split; [auto 10|]. split.
  - unfold db_ready.
    set (d1 := act (set_db_open (set_ready_once d (ready_once d ++ [done])) true)
                   Daemon [Log Info "Database ready." None]).
    destruct (@fold_start_open (ready_once d1) (set_ready_once d1 []) eq_refl)
      as (I1 & I2 & I3 & I4 & I5 & I6 & I7).
    rewrite I1, I2, I3, I5, I7. simpl. rewrite <- !app_assoc.
    auto 10.
  - intros d3 rest a Hl. unfold listen_callback. rewrite Hl.
    destruct done; simpl; auto.
Qed.

End Pipeline.

End ServerProps.

(** ** The daemon at work *)

Module Examples.
Import Server Script ServerProps.

(** A daemon that listens, with one client connected. *)
Definition serving : list (event frame) :=
  [DbReady; Start (Some 1); Listened (inr bound); Accept client].

(** Three requests, each answered before the next arrives. *)
Definition three_requests : list (event frame) :=
  serving ++
  [Receive client (Ask (take "ip")); Receive client (Ask ping);
   DecodeStep client; HandleStep client; DecodeStep client;
   EncodeStep client; HandleStep client; WriteStep client;
   Receive client (Ask (take "ip")); EncodeStep client; DecodeStep client;
   WriteStep client; HandleStep client; EncodeStep client; WriteStep client].

Example three_requests_answered :
  @written _ _ _ <$> sockets (go three_requests) !! client =
  Some [Answer true 2; Answer true 2; Answer true 1].
Proof. vm_compute. reflexivity. Qed.

(** The connection of the client once the three requests are answered. *)
Definition three_done : conn frame req (bool * nat) :=
  {| inbound := []; decoded := []; answered := []; encoded := [];
     written := [Answer true 2; Answer true 2; Answer true 1];
     ended := false; destroyed := false;
     decoder_piped := true; handler_armed := true;
     received := [Ask (take "ip"); Ask ping; Ask (take "ip")];
     handled :=
       [(take "ip", {| reply := Some (true, 2); raised := None |});
        (ping, {| reply := Some (true, 2); raised := None |});
        (take "ip", {| reply := Some (true, 1); raised := None |})] |}.

Lemma responses_in_request_order_witness :
  sockets (go three_requests) !! client = Some three_done /\
  map fst (handled three_done) = requests_of decode (received three_done) /\
  written three_done = map encode (replies (handled three_done)) /\
  (Forall (fun rh => is_Some (reply (snd rh))) (handled three_done) ->
   exists resps,
     written three_done = map encode resps /\
     Forall2 (answer_of handle) (requests_of decode (received three_done))
             resps).
Proof.
  assert (Hc : sockets (go three_requests) !! client = Some three_done)
    by (vm_compute; reflexivity).
  split; [exact Hc|].
  exact (proj2 (proj2 (proj2
           (@responses_in_request_order frame req (bool * nat) nat
              decode handle encode defaults 3 three_requests client
              three_done Hc)))
           eq_refl eq_refl eq_refl eq_refl eq_refl eq_refl).
Defined.

(** A malformed frame, and a valid request behind it. *)
Definition request_after_garbage : list (event frame) :=
  serving ++
  [Receive client Garbage; Receive client (Ask ping);
   DecodeStep client; DecodeStep client; HandleStep client;
   EncodeStep client; WriteStep client].

(** A request whose handling fails for good, and a valid request behind
    it. *)
Definition request_after_crash : list (event frame) :=
  serving ++
  [Receive client (Ask crash); Receive client (Ask ping);
   DecodeStep client; HandleStep client; DecodeStep client;
   HandleStep client; EncodeStep client; WriteStep client].

Definition store_down : error := Failure "Database is not open".

(** C3, as stated, fails.  A request that comes behind a malformed frame
    is received but never decoded, and a request that comes behind one
    whose handling raised a fatal error is decoded but never handled:
    in both runs the pipeline has drained and nothing was, or ever will
    be, written for the request [ping]. *)
Lemma request_behind_an_error_is_dropped :
  (sockets (go request_after_garbage) !! client =
     Some {| inbound := []; decoded := []; answered := []; encoded := [];
             written := []; ended := true; destroyed := false;
             decoder_piped := false; handler_armed := true;
             received := [Garbage; Ask ping]; handled := [] |} /\
   requests_of decode [Garbage; Ask ping] = [ping] /\
   forall later, exists c,
     sockets (run decode handle encode (go request_after_garbage) later)
       !! client = Some c /\
     written c = [] /\ handled c = []) /\
  (sockets (go request_after_crash) !! client =
     Some {| inbound := []; decoded := []; answered := []; encoded := [];
             written := []; ended := true; destroyed := false;
             decoder_piped := true; handler_armed := false;
             received := [Ask crash; Ask ping];
             handled := [(crash, {| reply := None;
                                    raised := Some store_down |})] |} /\
   requests_of decode [Ask crash; Ask ping] = [crash; ping] /\
   forall later, exists c,
     sockets (run decode handle encode (go request_after_crash) later)
       !! client = Some c /\
     written c = [] /\
     handled c = [(crash, {| reply := None; raised := Some store_down |})]).
Proof.
  split.
  - assert (Hc : sockets (go request_after_garbage) !! client =
       Some {| inbound := []; decoded := []; answered := []; encoded := [];
               written := []; ended := true; destroyed := false;
               decoder_piped := false; handler_armed := true;
               received := [Garbage; Ask ping]; handled := [] |})
      by (vm_compute; reflexivity).
    split; [exact Hc|]. split; [reflexivity|]. intros later.
    destruct (@conn_persists frame req (bool * nat) nat decode handle encode
                (dead_end [] [] [])
                (@dead_end_moves frame req (bool * nat) nat
                   decode handle encode [] [] []) later _ _ _ Hc)
      as (c & Hc' & _ & Hw & _ & _ & since & dropped & Hh & Hq).
    { repeat split. exists [], []. auto. }
    exists c. split; [exact Hc'|]. split; [exact Hw|].
    destruct since; [exact Hh | discriminate Hq].
  - assert (Hc : sockets (go request_after_crash) !! client =
       Some {| inbound := []; decoded := []; answered := []; encoded := [];
               written := []; ended := true; destroyed := false;
               decoder_piped := true; handler_armed := false;
               received := [Ask crash; Ask ping];
               handled := [(crash, {| reply := None;
                                      raised := Some store_down |})] |})
      by (vm_compute; reflexivity).
    split; [exact Hc|]. split; [reflexivity|]. intros later.
    destruct (@unfed_forever frame req (bool * nat) nat decode handle encode
                _ _ _ Hc eq_refl eq_refl
                (@fifo_run frame req (bool * nat) nat decode handle encode
         defaults 3 request_after_crash client _ Hc) later)
      as (c & Hc' & _ & Hh & more & Hw).
    exists c. split; [exact Hc'|]. split; [|exact Hh].
    simpl in Hw. destruct (written c); [reflexivity | discriminate Hw].
Qed.

(** A malformed frame arrives on a connection, and a valid request behind
    it. *)
Definition garbage_arrived : list (event frame) :=
  serving ++ [Receive client Garbage; Receive client (Ask (take "ip"))].

Definition garbage_pending : conn frame req (bool * nat) :=
  {| inbound := [Garbage; Ask (take "ip")]; decoded := []; answered := [];
     encoded := []; written := []; ended := false; destroyed := false;
     decoder_piped := true; handler_armed := true;
     received := [Garbage; Ask (take "ip")]; handled := [] |}.

Lemma malformed_frame_is_terminal_witness :
  sockets (go garbage_arrived) !! client = Some garbage_pending /\
  inbound garbage_pending = [Garbage; Ask (take "ip")] /\
  decode Garbage = Malformed (Failure "unexpected frame") /\
  forall evs, exists c'',
    sockets (run decode handle encode
               (step decode handle encode (go garbage_arrived)
                     (DecodeStep client)) evs) !! client = Some c'' /\
    ended c'' = true /\ written c'' = written garbage_pending /\
    decoder_piped c'' = false /\ inbound c'' = [] /\
    exists since dropped,
      handled c'' = handled garbage_pending ++ since /\
      decoded garbage_pending = map fst since ++ decoded c'' ++ dropped.
Proof.
  assert (Hc : sockets (go garbage_arrived) !! client = Some garbage_pending)
    by (vm_compute; reflexivity).
  split; [exact Hc|]. split; [reflexivity|]. split; [reflexivity|].
  exact (proj2 (proj2 (proj2 (proj2 (proj2 (proj2 (proj2
    (@malformed_frame_is_terminal frame req (bool * nat) nat
       decode handle encode (go garbage_arrived) client garbage_pending
       Garbage [Ask (take "ip")] (Failure "unexpected frame")
       Hc eq_refl eq_refl)))))))).
Defined.

(** The request behind the malformed frame never reaches the store. *)
Example request_behind_garbage_leaves_store :
  let evs := garbage_arrived ++
             [DecodeStep client; DecodeStep client; HandleStep client;
              EncodeStep client; WriteStep client] in
  db (go evs) = 3 /\
  (@ended _ _ _ <$> sockets (go evs) !! client) = Some true /\
  (@handled _ _ _ <$> sockets (go evs) !! client) = Some [] /\
  (@written _ _ _ <$> sockets (go evs) !! client) = Some [] /\
  trace (go evs) =
    trace (go serving) ++
    [(Conn client,
      Log Error pipeline_error_text (Some (Failure "unexpected frame")))].
Proof. vm_compute. repeat split; reflexivity. Qed.

Definition unknown_type : error := Failure "undefined bucket type nope".

Lemma handler_error_one_shot_witness :
  handler_armed (@accepted frame req (bool * nat)) = true /\
  (critical unknown_type = false <->
   JsString.includes (message unknown_type) "undefined bucket type") /\
  forall e2,
    request_handler_emits_error
      (fst (request_handler_emits_error (@accepted frame req (bool * nat))
              unknown_type)) e2 =
    (fst (request_handler_emits_error (@accepted frame req (bool * nat))
            unknown_type), [Uncaught e2]).
Proof.
  split; [reflexivity|].
  pose proof (@handler_error_one_shot frame req (bool * nat)
                accepted unknown_type eq_refl) as H.
  split; [exact (proj1 H) | exact (proj2 (proj2 (proj2 (proj2 (proj2 H)))))].
Defined.

(** One connection that asks for a bucket type that is not configured and
    then sends a valid request. *)
Definition unknown_then_valid : list (event frame) :=
  serving ++
  [Receive client (Ask (take "nope")); DecodeStep client; HandleStep client;
   Receive client (Ask (take "ip")); DecodeStep client; HandleStep client;
   EncodeStep client; WriteStep client].

(** C4 at its failing input: the error of the unknown bucket type is
    logged at info level and the socket is left open, but the valid
    request that follows is never handled: the store keeps its 3 tokens,
    and no response is, or ever will be, written to the open socket. *)
Lemma valid_request_after_unknown_type_unanswered :
  critical unknown_type = false /\
  sockets (go unknown_then_valid) !! client =
    Some {| inbound := []; decoded := []; answered := []; encoded := [];
            written := []; ended := false; destroyed := false;
            decoder_piped := true; handler_armed := false;
            received := [Ask (take "nope"); Ask (take "ip")];
            handled := [(take "nope", {| reply := None;
                                         raised := Some unknown_type |})] |} /\
  db (go unknown_then_valid) = 3 /\
  trace (go unknown_then_valid) =
    trace (go serving) ++
    [(Conn client, Log Info pipeline_error_text (Some unknown_type))] /\
  forall later, exists c,
    sockets (run decode handle encode (go unknown_then_valid) later)
      !! client = Some c /\
    written c = [] /\
    handled c = [(take "nope", {| reply := None;
                                  raised := Some unknown_type |})].
Proof.
  assert (Hc : sockets (go unknown_then_valid) !! client =
    Some {| inbound := []; decoded := []; answered := []; encoded := [];
            written := []; ended := false; destroyed := false;
            decoder_piped := true; handler_armed := false;
            received := [Ask (take "nope"); Ask (take "ip")];
            handled := [(take "nope", {| reply := None;
                                         raised := Some unknown_type |})] |})
    by (vm_compute; reflexivity).
  split; [vm_compute; reflexivity|]. split; [exact Hc|].
  split; [vm_compute; reflexivity|]. split; [vm_compute; reflexivity|].
  intros later.
  destruct (@unfed_forever frame req (bool * nat) nat decode handle encode
              _ _ _ Hc eq_refl eq_refl
              (@fifo_run frame req (bool * nat) nat decode handle encode
         defaults 3 unknown_then_valid client _ Hc) later)
    as (c & Hc' & _ & Hh & more & Hw).
  exists c. split; [exact Hc'|]. split; [|exact Hh].
  simpl in Hw. destruct (written c); [reflexivity | discriminate Hw].
Qed.

(** After the error of an unknown bucket type the handler sees nothing
    any more, so a request that would make it fail for good is dropped
    like any other: nothing is logged for it and the socket stays open. *)
Example unknown_then_critical :
  let evs := serving ++
    [Receive client (Ask (take "nope")); DecodeStep client; HandleStep client;
     Receive client (Ask crash); DecodeStep client; HandleStep client;
     Receive client (Ask (take "ip")); DecodeStep client; HandleStep client;
     EncodeStep client; WriteStep client] in
  (@ended _ _ _ <$> sockets (go evs) !! client) = Some false /\
  (@written _ _ _ <$> sockets (go evs) !! client) = Some [] /\
  (map fst <$> (@handled _ _ _ <$> sockets (go evs) !! client)) =
    Some [take "nope"] /\
  db (go evs) = 3 /\
  trace (go evs) =
    trace (go serving) ++
    [(Conn client, Log Info pipeline_error_text (Some unknown_type))].
Proof. vm_compute. repeat split; reflexivity. Qed.

(** A critical error as the first error of a connection is fatal. *)
Example critical_error_first_is_fatal :
  let evs := serving ++ [Receive client (Ask crash); DecodeStep client;
                         HandleStep client] in
  critical store_down = true /\
  (@ended _ _ _ <$> sockets (go evs) !! client) = Some true /\
  trace (go evs) =
    trace (go serving) ++
    [(Conn client, Log Error pipeline_error_text (Some store_down))].
Proof. vm_compute. repeat split; reflexivity. Qed.

(** A response is in flight when [stop] is called; the server and the
    store then close without trouble. *)
Definition in_flight : list (event frame) :=
  serving ++
  [Receive client (Ask ping); DecodeStep client; HandleStep client;
   EncodeStep client; Stop (Some 7); WriteStep client;
   ServerDestroyed 0 None; DbClosed 0 None; WriteStep client].

(** C5, as stated, fails.  When the server does not report back within
    5000 ms the completion callback is invoked although the store was not
    even asked to close; and a response that was in flight when [stop]
    was called is never written, although the shutdown completes. *)
Lemma completion_before_store_closed :
  (mine 0 (trace (go [Stop (Some 7); Elapse 5000])) =
     [Log Debug "closing server" None; Destroy;
      Complete (Some 7) (Some (TimeoutError 5000))] /\
   ~ In CloseDb (mine 0 (trace (go [Stop (Some 7); Elapse 5000])))) /\
  ((@encoded _ _ _ <$> sockets (go in_flight) !! client) = Some [Answer true 3] /\
   (@written _ _ _ <$> sockets (go in_flight) !! client) = Some [] /\
   mine 0 (trace (go in_flight)) =
     [Log Debug "closing server" None; Destroy;
      Log Debug "server closed" None; CloseDb;
      Log Debug "database closed" None; Emit close;
      Complete (Some 7) None]).
Proof.
  split; [split; [vm_compute; reflexivity|]|vm_compute; auto].
  vm_compute. intros [H|[H|[H|[]]]]; discriminate H.
Qed.

(** The server reports its failure only after 5000 ms. *)
Definition late_failure : list (event frame) :=
  [Stop (Some 7); Elapse 5000;
   ServerDestroyed 0 (Some (Failure "ENOTCONN")); DbClosed 0 None].

(** C10, as stated, fails: when the server reports its failure only
    after the 5000 ms timer has fired, the completion callback has
    already been invoked with the [TimeoutError]; ['close'] is still
    emitted, but the callback never receives the server-close error. *)
Lemma timeout_hides_close_error :
  mine 0 (trace (go late_failure)) =
    [Log Debug "closing server" None; Destroy;
     Complete (Some 7) (Some (TimeoutError 5000));
     Log Error "error closing the tcp server" (Some (Failure "ENOTCONN"));
     CloseDb; Log Debug "database closed" None; Emit close] /\
  ~ In (Complete (Some 7) (Some (Failure "ENOTCONN")))
       (mine 0 (trace (go late_failure))).
Proof.
  split; [vm_compute; reflexivity|].
  vm_compute. intros H. repeat (destruct H as [H|H]; [discriminate H|]).
  exact H.
Qed.

(** Both closes fail, and both report back within 300 ms, while other
    things go on. *)
Definition before_server : list (event frame) := [Elapse 100; Start None].
Definition before_store : list (event frame) := [Elapse 200; Stop None].
Definition server_failure : option error := Some (Failure "ENOTCONN").
Definition store_failure : option error := Some (Failure "IO error").

Example both_closes_fail :
  mine 0 (trace (go ([Stop (Some 7)] ++ before_server ++
                     [ServerDestroyed 0 server_failure] ++ before_store ++
                     [DbClosed 0 store_failure]))) =
    [Log Debug "closing server" None; Destroy;
     Log Error "error closing the tcp server" (Some (Failure "ENOTCONN"));
     CloseDb;
     Log Error "error closing the database" (Some (Failure "IO error"));
     Emit close; Complete (Some 7) (Some (Failure "ENOTCONN"))].
Proof. vm_compute. reflexivity. Qed.

(** What the two runs above look like to the script: both closes reported
    back in time, or the timer fired while the server was closing. *)
Example scripts_of_the_runs :
  reports 0 ([Stop (Some 7)] ++ before_server ++
             [ServerDestroyed 0 server_failure] ++ before_store ++
             [DbClosed (payload := frame) 0 store_failure]) =
    (Some server_failure, Some store_failure) /\
  script (Some 7) Not_fired (Some server_failure, Some store_failure) =
    [Log Debug "closing server" None; Destroy;
     Log Error "error closing the tcp server" (Some (Failure "ENOTCONN"));
     CloseDb;
     Log Error "error closing the database" (Some (Failure "IO error"));
     Emit close; Complete (Some 7) (Some (Failure "ENOTCONN"))] /\
  reports 0 late_failure = (Some (Some (Failure "ENOTCONN")), Some None) /\
  script (Some 7) Fired_closing_server (reports 0 late_failure) =
    mine 0 (trace (go late_failure)).
Proof. vm_compute. repeat split; reflexivity. Qed.

(** The store never reports back: the timer invokes the callback and
    ['close'] is not emitted. *)
Example store_never_reports :
  let evs := [Stop (Some 7); ServerDestroyed 0 None; Elapse 5000;
              Elapse 4000] in
  reports (payload := frame) 0 evs = (Some None, None) /\
  mine 0 (trace (go evs)) =
    [Log Debug "closing server" None; Destroy;
     Log Debug "server closed" None; CloseDb;
     Complete (Some 7) (Some (TimeoutError 5000))] /\
  mine 0 (trace (go evs)) = script (Some 7) Fired_closing_db (Some None, None).
Proof. vm_compute. repeat split; reflexivity. Qed.

(** A call of [start] after [stop] opens the listener again, once its
    [listen] has succeeded. *)
Example start_after_stop :
  let stopped := [DbReady; Start (Some 1); Listened (inr bound);
                  Stop None; Start (Some 2)] in
  accepting (go stopped) = false /\
  accepting (go (stopped ++ [Listened (inr bound)])) = true /\
  (@destroyed _ _ _ <$>
   sockets (go (stopped ++ [Listened (inr bound); Accept client])) !! client) =
    Some false.
Proof. vm_compute. repeat split; reflexivity. Qed.

(** [start] before the store is ready, then ['ready'], then the listen
    succeeds. *)
Example parked_start_then_ready :
  trace (go [Start (Some 1)]) = [] /\
  ready_once (go [Start (Some 1)]) = [Some 1] /\
  accepting (go [Start (Some 1); DbReady]) = false /\
  accepting (go [Start (Some 1); DbReady; Listened (inr bound)]) = true /\
  trace (go [Start (Some 1); DbReady; Listened (inr bound)]) =
    [(Daemon, Log Info "Database ready." None);
     (Daemon, Listen 9231 "0.0.0.0");
     (Daemon, Log Info "server started" None);
     (Daemon, Emit (started bound));
     (Daemon, Done 1 None (Some bound))].
Proof. vm_compute. repeat split; reflexivity. Qed.

Lemma start_waits_for_ready_witness :
  db_open daemon0 = false /\
  trace (step decode handle encode daemon0 (Start (Some 1))) =
    trace daemon0 /\
  listens (step decode handle encode daemon0 (Start (Some 1))) =
    listens daemon0 /\
  accepting (step decode handle encode daemon0 (Start (Some 1))) =
    accepting daemon0 /\
  server_address (step decode handle encode daemon0 (Start (Some 1))) =
    server_address daemon0 /\
  ready_once (step decode handle encode daemon0 (Start (Some 1))) =
    ready_once daemon0 ++ [Some 1].
Proof.
  split; [reflexivity|].
  exact (proj1 (@start_waits_for_ready frame req (bool * nat) nat
                  decode handle encode daemon0 (Some 1) eq_refl)).
Defined.

End Examples.

(** ** Construction: [new LimitdServer(options)] *)

Module Construction.

(** JavaScript values, as far as the options of the daemon use them.
    Objects are finite maps from property names to values. *)
Unset Elimination Schemes.
Inductive value :=
| VUndefined
| VNull
| VBool (b : bool)
| VNumber (z : Z)
| VString (s : string)
| VFunction (name : string)
| VObject (fields : gmap string value).
Set Elimination Schemes.

Abbreviation object := (gmap string value).

(** [!v] is [negb (truthy v)]. *)
Definition truthy (v : value) : bool :=
  match v with
  | VUndefined | VNull => false
  | VBool b => b
  | VNumber z => negb (z =? 0)%Z
  | VString s => negb (String.eqb s "")
  | VFunction _ | VObject _ => true
  end.

Definition typeof (v : value) : string :=
  match v with
  | VUndefined => "undefined"
  | VNull | VObject _ => "object"
  | VBool _ => "boolean"
  | VNumber _ => "number"
  | VString _ => "string"
  | VFunction _ => "function"
  end.

(** [o.k]: the property, or [undefined] when the object has none. *)
Definition get (o : object) (k : string) : value :=
  default VUndefined (o !! k).

(** [_.extend({}, a, b)]: the properties of [a], then those of [b] over
    them. *)
Definition extend (a b : object) : object := b ∪ a.

(** [Object.assign(target, source)]; a source that is not an object adds
    nothing. *)
Definition assign (target : object) (source : value) : object :=
  match source with
  | VObject o => o ∪ target
  | _ => target
  end.

Definition defaults : object :=
  <["port" := VNumber 9231]>
  (<["hostname" := VString "0.0.0.0"]>
  (<["log_level" := VString "info"]>
  (<["metrics" := VObject (<["histogram" := VFunction "noop"]>
                          (<["increment" := VFunction "noop"]> ∅))]> ∅))).

Inductive thrown :=
| TypeError (msg : string)
| Error (msg : value).

(** The message of the [TypeError]: the word db in double quotes, then
    [ is required]. *)
Definition db_is_required : string :=
  String "034"%char (String.append "db" (String "034"%char " is required")).

(** What the constructor leaves behind: the merged configuration, the
    configuration handed to [new LimitDB], the level handed to the logger
    and the metrics object. *)
Record instance := {
  _config : object;
  dbConfig : object;
  log_level : value;
  _metrics : value
}.

Section Validator.

(** [validateConfig] of [lib/config_validator]: an error message, or a
    falsy value for a valid configuration. *)
Variable validateConfig : object -> value.

Definition LimitdServer (options : object) : thrown + instance :=
  if negb (truthy (get options "db")) then inl (TypeError db_is_required)
  else
    let config := extend defaults options in
    let configError := validateConfig config in
    if truthy configError then inl (Error configError)
    else
      let types : object := {[ "types" := get config "buckets" ]} in
      let db := get config "db" in
      let dbConfig :=
        if String.eqb (typeof db) "string"
        then <["path" := db]> types
        else if String.eqb (typeof db) "object"
             then assign types db
             else types in
      inr {| _config := config; dbConfig := dbConfig;
             log_level := get config "log_level";
             _metrics := get config "metrics" |}.

End Validator.

End Construction.

Module ConstructionProps.
Import Construction.

Section Validator.

Variable validateConfig : object -> value.

Local Abbreviation LimitdServer := (Construction.LimitdServer validateConfig).

Lemma get_extend (a b : object) (k : string) :
  get (extend a b) k =
  match b !! k with
  | Some v => v
  | None => get a k
  end.
Proof.
  unfold get, extend. rewrite lookup_union.
  destruct (b !! k), (a !! k); reflexivity.
Qed.

Lemma construct_inr (options : object) (i : instance) :
  LimitdServer options = inr i ->
  truthy (get options "db") = true /\
  truthy (validateConfig (extend defaults options)) = false /\
  _config i = extend defaults options /\
  get (_config i) "db" = get options "db".
Proof.
  unfold Construction.LimitdServer.
  destruct (truthy (get options "db")) eqn:Hdb; [|discriminate]. simpl.
  destruct (truthy (validateConfig (extend defaults options))) eqn:Hv;
    [discriminate|].
  intros H. injection H as <-. simpl. repeat split.
  rewrite get_extend. unfold get in *.
  destruct (options !! "db"); [reflexivity | discriminate Hdb].
Qed.

(** Every property of the merged configuration is the option of that
    name when the options have one, also when its value is [undefined],
    and the default otherwise; the logger level and the metrics object are
    read from the merged configuration. *)
Theorem options_override_defaults (options : object) (i : instance) :
  LimitdServer options = inr i ->
  (forall k v, options !! k = Some v -> _config i !! k = Some v) /\
  (forall k, options !! k = None -> _config i !! k = defaults !! k) /\
  log_level i = match options !! "log_level" with
                | Some v => v
                | None => VString "info"
                end /\
  _metrics i = match options !! "metrics" with
               | Some v => v
               | None => get defaults "metrics"
               end.
Proof.
  intros H. destruct (construct_inr _ H) as (_ & _ & Hc & _).
  assert (Hl : log_level i = get (_config i) "log_level" /\
               _metrics i = get (_config i) "metrics").
  { revert H. unfold Construction.LimitdServer.
    destruct (negb (truthy (get options "db"))); [discriminate|].
    destruct (truthy (validateConfig (extend defaults options)));
      [discriminate|].
    intros H. injection H as <-. auto. }
  destruct Hl as [-> ->]. rewrite Hc. repeat split.
  - intros k v Hk. unfold extend. rewrite lookup_union, Hk.
    destruct (defaults !! k); reflexivity.
  - intros k Hk. unfold extend. rewrite lookup_union, Hk.
    destruct (defaults !! k); reflexivity.
  - rewrite get_extend. destruct (options !! "log_level"); reflexivity.
  - rewrite get_extend. destruct (options !! "metrics"); reflexivity.
Qed.

(** The configuration handed to the store.  A string [db] becomes its
    [path], beside [types = options.buckets]; the properties of an object
    [db] are copied over [types], so that a [types] property of [db] wins
    over [options.buckets]; any other truthy [db] (a number, [true], a
    function) is ignored and the store gets [types] alone. *)
Theorem store_configuration (options : object) (i : instance) :
  LimitdServer options = inr i ->
  match get options "db" with
  | VString s =>
      dbConfig i =
      <["path" := VString s]> {[ "types" := get options "buckets" ]}
  | VObject o =>
      forall k,
        dbConfig i !! k =
        match o !! k with
        | Some v => Some v
        | None => if String.eqb k "types"
                  then Some (get options "buckets") else None
        end
  | _ => dbConfig i = {[ "types" := get options "buckets" ]}
  end.
Proof.
  intros H. destruct (construct_inr _ H) as (Hdb & _ & Hc & Hcdb).
  assert (Hb : get (extend defaults options) "buckets" = get options "buckets").
  { rewrite get_extend. unfold get.
    destruct (options !! "buckets"); reflexivity. }
  rewrite Hc in Hcdb.
  revert H. unfold Construction.LimitdServer. rewrite Hdb. simpl.
  destruct (truthy (validateConfig (extend defaults options)));
    [discriminate|].
  rewrite Hcdb, Hb. intros H. injection H as <-. simpl.
  destruct (get options "db") as [| |b|z|s|f|o]; simpl; try reflexivity.
  intros k. rewrite lookup_union.
  destruct (String.eqb_spec k "types") as [->|Hne].
  - rewrite lookup_singleton_eq. destruct (o !! "types"); reflexivity.
  - rewrite lookup_singleton_ne by congruence.
    destruct (o !! k); reflexivity.
Qed.

End Validator.

End ConstructionProps.

(** ** The daemon over whole runs *)

Module DaemonProps.
Import Server ServerProps.

(** The steps of getting into service, and the calls of [done]. *)
Inductive milestone :=
| Ready
| Listening
| Started
| Accepted
| Called (k : callback).

Definition milestone_of (e : entry) : option milestone :=
  match e with
  | (Daemon, Log Info text None) =>
      if String.eqb text "Database ready." then Some Ready else None
  | (Daemon, Listen _ _) => Some Listening
  | (Daemon, Emit (started _)) => Some Started
  | (Daemon, Done k _ _) => Some (Called k)
  | (Conn _, Log Debug text None) =>
      if String.eqb text "connection accepted" then Some Accepted else None
  | _ => None
  end.

Definition plain (e : entry) : Prop := milestone_of e = None.

Definition reached (m : milestone) (tr : list entry) : Prop :=
  Exists (fun e => milestone_of e = Some m) tr.

(** Every entry of kind [m2] has an entry of kind [m1] before it. *)
Definition preceded (m1 m2 : milestone) (tr : list entry) : Prop :=
  forall l1 e l2, tr = l1 ++ e :: l2 -> milestone_of e = Some m2 ->
                  reached m1 l1.

Definition is_start (k : callback) (o : option callback) : bool :=
  match o with
  | Some j => j =? k
  | None => false
  end.

Definition is_call (k : callback) (e : entry) : bool :=
  match milestone_of e with
  | Some (Called j) => j =? k
  | _ => false
  end.

(** How often [done = k] was called. *)
Definition calls (k : callback) (tr : list entry) : nat :=
  length (List.filter (is_call k) tr).

(** How many calls of [start] with [done = k] wait for the store or for
    the listener. *)
Definition pending {payload request response store : Type} (k : callback)
    (d : daemon payload request response store) : nat :=
  length (List.filter (is_start k) (ready_once d)) +
  length (List.filter (is_start k) (listens d)).

(** How often [start] is called with [done = k] among the events. *)
Definition starts {payload : Type} (k : callback)
    (evs : list (event payload)) : nat :=
  length (List.filter (fun ev => match ev with
                                 | Start o => is_start k o
                                 | _ => false
                                 end) evs).

(** The events of one connection. *)
Definition conn_event {payload : Type} (ev : event payload) : option peer :=
  match ev with
  | Receive p _ | DecodeStep p | HandleStep p | EncodeStep p | WriteStep p
  | SocketError p _ | SocketClosed p => Some p
  | _ => None
  end.

(** The events that neither start the daemon nor accept a connection. *)
Definition boring {payload : Type} (ev : event payload) : bool :=
  match ev with
  | Start _ | DbReady | Listened _ | Accept _ => false
  | _ => true
  end.

Section Pipeline.

Variables payload request response store : Type.
Variable decode : payload -> parsed request.
Variable handle : store -> request -> store * handling response.
Variable encode : response -> payload.

Local Abbreviation conn := (Server.conn payload request response).
Local Abbreviation daemon := (Server.daemon payload request response store).
Local Abbreviation event := (Server.event payload).
Local Abbreviation step := (Server.step decode handle encode).
Local Abbreviation run := (Server.run decode handle encode).
Local Abbreviation new_daemon := (@LimitdServer payload request response store).

Lemma plain_conn_acts (p : peer) (acts : list action) :
  Forall (fun a => a <> Log Debug "connection accepted" None) acts ->
  Forall plain (map (pair (Conn p)) acts).
Proof.
  intros H. induction H as [|a acts Ha _ IH]; simpl; constructor; [|exact IH].
  unfold plain. simpl. destruct a as [l text err| | | | | | |]; try reflexivity.
  destruct l; try reflexivity. destruct err; [reflexivity|].
  destruct (String.eqb_spec text "connection accepted") as [->|]; congruence.
Qed.

Lemma plain_stopping (n : nat) (acts : list action) :
  Forall plain (map (pair (Stopping n)) acts).
Proof. induction acts; simpl; constructor; auto. reflexivity. Qed.

Lemma decode_step_acts (c : conn) :
  Forall (fun a => a <> Log Debug "connection accepted" None)
         (snd (decode_step decode c)).
Proof.
  unfold decode_step. destruct (inbound c); [constructor|].
  destruct (decode p); simpl; repeat constructor. discriminate.
Qed.

Lemma handle_step_acts (s : store) (c : conn) :
  Forall (fun a => a <> Log Debug "connection accepted" None)
         (snd (handle_step handle s c)).
Proof.
  unfold handle_step. destruct (decoded c); [constructor|].
  destruct (handle s r) as [s' h]. destruct (raised h); [|constructor].
  unfold request_handler_emits_error, request_handler_once_error.
  destruct (handler_armed _);
    [|simpl; repeat constructor; discriminate].
  destruct (critical e); simpl; repeat constructor; discriminate.
Qed.

Lemma fire_timers_plain (now : nat) (ss : list stopping) : forall m,
  Forall plain (snd (fire_timers now m ss)).
Proof.
  induction ss as [|s ss IH]; intros m; simpl; [constructor|].
  destruct (fire_timer now m s) as [s' a] eqn:E.
  specialize (IH (S m)). destruct (fire_timers now (S m) ss) as [r b].
  simpl in *. apply Forall_app. split; [|exact IH].
  revert E. unfold fire_timer. destruct (tid (wrapper s)).
  - destruct (n <=? now).
    + destruct (cb_timer (wrapper s)) as [g [|]]; intros E; injection E as _ <-;
        repeat constructor.
    + intros E; injection E as _ <-. constructor.
  - intros E; injection E as _ <-. constructor.
Qed.

(** What a boring event leaves alone. *)
Record unmoved (d d' : daemon) : Prop := {
  um_trace : exists new, trace d' = trace d ++ new /\ Forall plain new;
  um_ready_once : ready_once d' = ready_once d;
  um_listens : listens d' = listens d;
  um_address : server_address d' = server_address d;
  um_settings : settings d' = settings d;
  um_db_open : db_open d' = true -> db_open d = true;
  um_accepting : accepting d' = true -> accepting d = true;
  um_sockets : forall p c', sockets d' !! p = Some c' ->
                            exists c, sockets d !! p = Some c
}.

Lemma unmoved_refl (d : daemon) : unmoved d d.
Proof.
  split; auto; [|eauto]. exists []. rewrite app_nil_r. split; auto.
Qed.

Lemma unmoved_on_socket (d : daemon) (p : peer)
    (f : conn -> conn * list action) :
  (forall c, Forall (fun a => a <> Log Debug "connection accepted" None)
                    (snd (f c))) ->
  unmoved d (on_socket d p f).
Proof.
  intros Hf. unfold on_socket.
  destruct (sockets d !! p) as [c|] eqn:Hp; [|apply unmoved_refl].
  specialize (Hf c). destruct (f c) as [c' acts]. simpl in Hf.
  split; simpl; auto.
  - eexists. split; [reflexivity|]. apply plain_conn_acts, Hf.
  - intros q cq. destruct (decide (p = q)) as [<-|Hne].
    + eauto.
    + rewrite lookup_insert_ne by exact Hne. eauto.
Qed.

Lemma boring_step (ev : event) (d : daemon) :
  boring ev = true -> unmoved d (step d ev).
Proof.
  destruct ev; try discriminate; intros _; cbn [Server.step].
  - split; simpl; eauto. eexists. split; [reflexivity|].
    repeat constructor.
  - split; simpl; eauto. eexists. split; [reflexivity|].
    repeat constructor.
  - split; simpl; eauto. eexists. split; [reflexivity|].
    repeat constructor.
  - apply unmoved_on_socket. intros c. constructor.
  - apply unmoved_on_socket. apply decode_step_acts.
  - unfold on_handle.
    destruct (sockets d !! p) as [c|] eqn:Hp; [|apply unmoved_refl].
    pose proof (handle_step_acts (db d) c) as Hf.
    destruct (handle_step handle (db d) c) as [[s' c'] acts]. simpl in Hf.
    split; simpl; auto.
    + eexists. split; [reflexivity|]. apply plain_conn_acts, Hf.
    + intros q cq. destruct (decide (p = q)) as [<-|Hne].
      * eauto.
      * rewrite lookup_insert_ne by exact Hne. eauto.
  - apply unmoved_on_socket. intros c. constructor.
  - apply unmoved_on_socket. intros c. constructor.
  - apply unmoved_on_socket. intros c. repeat constructor. discriminate.
  - apply unmoved_on_socket. intros c. repeat constructor. discriminate.
  - (* Stop *)
    unfold stop. split; simpl; auto; try discriminate.
    + eexists. split; [reflexivity|]. repeat constructor.
    + intros q cq. rewrite lookup_fmap.
      destruct (sockets d !! q); [eauto | discriminate].
  - (* ServerDestroyed *)
    unfold destroy_callback.
    destruct (stops d !! n); [|apply unmoved_refl].
    destruct (stage s); try apply unmoved_refl.
    split; simpl; eauto. eexists. split; [reflexivity|].
    repeat constructor.
  - (* DbClosed *)
    unfold close_callback.
    destruct (stops d !! n); [|apply unmoved_refl].
    destruct (stage s); try apply unmoved_refl.
    destruct (cb_call (wrapper s)) as [g invoked].
    destruct err; split; simpl; eauto; try discriminate;
      eexists; (split; [reflexivity|]);
      apply (plain_stopping n (_ :: _ :: _)).
  - (* Elapse *)
    unfold elapse.
    pose proof (fire_timers_plain (clock d + ms) (stops d) 0) as Hp.
    destruct (fire_timers (clock d + ms) 0 (stops d)) as [ss acts].
    split; simpl; eauto.
Qed.

(** *** Accounting for the calls of [done] *)

Lemma calls_app (k : callback) (tr new : list entry) :
  calls k (tr ++ new) = calls k tr + calls k new.
Proof. unfold calls. rewrite List.filter_app, length_app. reflexivity. Qed.

Lemma calls_none (k : callback) (new : list entry) :
  Forall (fun e => is_call k e = false) new -> calls k new = 0.
Proof.
  unfold calls. induction 1 as [|e new He _ IH]; simpl; [reflexivity|].
  rewrite He. exact IH.
Qed.

Lemma calls_plain (k : callback) (new : list entry) :
  Forall plain new -> calls k new = 0.
Proof.
  intros H. apply calls_none. eapply Forall_impl; [exact H|].
  intros e He. unfold is_call. rewrite He. reflexivity.
Qed.

Lemma count_app (k : callback) (l r : list (option callback)) :
  length (List.filter (is_start k) (l ++ r)) =
  length (List.filter (is_start k) l) + length (List.filter (is_start k) r).
Proof. rewrite List.filter_app, length_app. reflexivity. Qed.

Lemma calls_listens (k : callback) (P : Z) (h : string)
    (l : list (option callback)) :
  calls k (map (fun _ => (Daemon, Listen P h)) l) = 0.
Proof. apply calls_none. induction l; simpl; constructor; auto. Qed.

Definition started_with {A : Type} (k : callback) (ev : Server.event A) : nat :=
  match ev with
  | Start o => if is_start k o then 1 else 0
  | _ => 0
  end.

Lemma step_accounts (k : callback) (ev : event) (d : daemon) :
  calls k (trace (step d ev)) + pending k (step d ev) =
  calls k (trace d) + pending k d + started_with k ev.
Proof.
  destruct (boring ev) eqn:Hb.
  - destruct (@boring_step ev d Hb) as [(new & Ht & Hp) Hr Hl _ _ _ _ _].
    unfold pending. rewrite Ht, Hr, Hl, calls_app, (calls_plain k Hp).
    destruct ev; try discriminate; simpl; lia.
  - destruct ev; try discriminate; cbn [Server.step started_with].
    + (* Start *)
      unfold start, pending. destruct (negb (db_open d)); simpl.
      * rewrite count_app. simpl. destruct (is_start k done); simpl; lia.
      * rewrite count_app, calls_app. unfold calls. simpl.
        destruct (is_start k done); simpl; lia.
    + (* DbReady *)
      unfold db_ready.
      set (d1 := act (set_db_open d true) Daemon
                     [Log Info "Database ready." None]).
      destruct (@fold_start_open payload request response store
                  (ready_once d1) (set_ready_once d1 []) eq_refl)
        as (_ & I2 & I3 & _ & _ & _ & I7).
      unfold pending. rewrite I2, I3, I7. simpl.
      rewrite !calls_app, calls_listens, count_app.
      change (calls k [(Daemon, Log Info "Database ready." None)]) with 0.
      simpl. lia.
    + (* Listened *)
      unfold listen_callback, pending.
      destruct (listens d) as [|done rest] eqn:El;
        [simpl; rewrite El; simpl; lia|].
      destruct res as [err|a]; simpl; rewrite calls_app;
        destruct done as [j|]; simpl; unfold calls; simpl;
        unfold is_call; simpl; try destruct (j =? k); simpl; lia.
    + (* Accept *)
      destruct (accepting d); [|simpl; lia].
      destruct (sockets d !! p); [simpl; lia|].
      unfold _handler, pending. simpl. rewrite calls_app.
      unfold calls. simpl. lia.
Qed.

Lemma starts_cons (k : callback) (ev : event) (evs : list event) :
  starts k (ev :: evs) = started_with k ev + starts k evs.
Proof.
  unfold starts. simpl. destruct ev; simpl; try reflexivity.
  destruct (is_start k done); reflexivity.
Qed.

(** Over any run, for every callback [k]: the calls of [done = k] made
    plus the calls of [start(k)] still waiting (for the store to be ready,
    or for the listener) grow by exactly the number of calls of
    [start(k)].  No [start] is forgotten and none is answered twice,
    whatever else happens, failed listens and shutdowns included. *)
Theorem every_start_is_answered_once (k : callback) (evs : list event) :
  forall d : daemon,
    calls k (trace (run d evs)) + pending k (run d evs) =
    calls k (trace d) + pending k d + starts k evs.
Proof.
  induction evs as [|ev evs IH]; intros d.
  - unfold starts. simpl. lia.
  - change (run d (ev :: evs)) with (run (step d ev) evs).
    rewrite IH, step_accounts, starts_cons. lia.
Qed.

(** *** Getting into service, in order *)

Lemma reached_app_l (m : milestone) (tr new : list entry) :
  reached m tr -> reached m (tr ++ new).
Proof. intros H. apply Exists_app. left. exact H. Qed.

Lemma reached_app_r (m : milestone) (tr new : list entry) :
  reached m new -> reached m (tr ++ new).
Proof. intros H. apply Exists_app. right. exact H. Qed.

Lemma preceded_app (m1 m2 : milestone) (tr new : list entry) :
  preceded m1 m2 tr ->
  (forall l1 e l2, new = l1 ++ e :: l2 -> milestone_of e = Some m2 ->
                   reached m1 (tr ++ l1)) ->
  preceded m1 m2 (tr ++ new).
Proof.
  intros Htr Hnew l1 e l2 Heq He.
  apply List.app_eq_app in Heq as [l [[-> Hl]|[-> Hl]]].
  - destruct l as [|x l]; simpl in Hl.
    + specialize (Hnew [] e l2 (eq_sym Hl) He).
      rewrite !app_nil_r in Hnew. exact Hnew.
    + injection Hl as -> ->. exact (Htr _ _ _ eq_refl He).
  - exact (Hnew l e l2 Hl He).
Qed.

Lemma preceded_plain (m1 m2 : milestone) (tr new : list entry) :
  preceded m1 m2 tr -> Forall (fun e => milestone_of e <> Some m2) new ->
  preceded m1 m2 (tr ++ new).
Proof.
  intros Htr Hnew. apply preceded_app; [exact Htr|].
  intros l1 e l2 -> He. exfalso.
  apply Forall_app in Hnew as [_ Hnew]. inversion Hnew; subst. contradiction.
Qed.

Lemma plain_is_not (m : milestone) (new : list entry) :
  Forall plain new -> Forall (fun e => milestone_of e <> Some m) new.
Proof.
  intros H. eapply Forall_impl; [exact H|].
  intros e He. unfold plain in He. congruence.
Qed.

Lemma listens_not (m : milestone) (P : Z) (h : string)
    (l : list (option callback)) :
  m <> Listening ->
  Forall (fun e => milestone_of e <> Some m)
         (map (fun _ => (Daemon, Listen P h)) l).
Proof.
  intros Hm. induction l; simpl; constructor; auto. simpl. congruence.
Qed.

(** What holds of a daemon on its way into service. *)
Record in_order (d : daemon) : Prop := {
  io_ready : db_open d = true -> reached Ready (trace d);
  io_listen : preceded Ready Listening (trace d);
  io_pending : listens d <> [] -> reached Listening (trace d);
  io_started : preceded Listening Started (trace d);
  io_accepting :
    accepting d = true ->
    exists a, server_address d = Some a /\
              In (Daemon, Emit (started a)) (trace d);
  io_accepted : preceded Started Accepted (trace d);
  io_sockets :
    forall p c, sockets d !! p = Some c ->
                In (Conn p, Log Debug "connection accepted" None) (trace d)
}.

Lemma in_order_new (options : config) (s0 : store) :
  in_order (new_daemon options s0).
Proof.
  split; simpl; try discriminate; try congruence;
    try (intros l1 e l2 H; destruct l1; discriminate H);
    try (intros p c H; rewrite lookup_empty in H; discriminate H).
Qed.

Lemma in_order_unmoved (d d' : daemon) :
  unmoved d d' -> in_order d -> in_order d'.
Proof.
  intros [(new & Ht & Hp) _ Hl Ha _ Ho Hacc Hs] [I1 I2 I3 I4 I5 I6 I7].
  split; rewrite ?Ht, ?Hl, ?Ha.
  - intros H. apply reached_app_l, I1, Ho, H.
  - apply preceded_plain; [exact I2 | apply plain_is_not, Hp].
  - intros H. apply reached_app_l, I3, H.
  - apply preceded_plain; [exact I4 | apply plain_is_not, Hp].
  - intros H. destruct (I5 (Hacc H)) as (a & E & Hin).
    exists a. split; [exact E|]. apply in_or_app. left. exact Hin.
  - apply preceded_plain; [exact I6 | apply plain_is_not, Hp].
  - intros p c' H. destruct (Hs _ _ H) as [c Hc].
    apply in_or_app. left. exact (I7 _ _ Hc).
Qed.

Lemma started_reached (a : address) (tr : list entry) :
  In (Daemon, Emit (started a)) tr -> reached Started tr.
Proof.
  intros H. apply List.Exists_exists. exists (Daemon, Emit (started a)).
  split; [exact H | reflexivity].
Qed.

Lemma in_order_step (ev : event) (d : daemon) :
  in_order d -> in_order (step d ev).
Proof.
  intros I. destruct (boring ev) eqn:Hb.
  { exact (in_order_unmoved (@boring_step ev d Hb) I). }
  destruct I as [I1 I2 I3 I4 I5 I6 I7].
  destruct ev; try discriminate; cbn [Server.step].
  - (* Start *)
    unfold start. destruct (db_open d) eqn:Ho; simpl.
    + split; simpl.
      * intros _. apply reached_app_l, I1. reflexivity.
      * apply preceded_app; [exact I2|].
        intros l1 e l2 _ _. apply reached_app_l, I1. reflexivity.
      * intros _. apply reached_app_r. repeat constructor.
      * apply preceded_plain; [exact I4|]. repeat constructor. discriminate.
      * intros H. destruct (I5 H) as (a & E & Hin). exists a.
        split; [exact E|]. apply in_or_app. left. exact Hin.
      * apply preceded_plain; [exact I6|]. repeat constructor. discriminate.
      * intros p c H. apply in_or_app. left. exact (I7 _ _ H).
    + split; simpl; auto. rewrite Ho. discriminate.
  - (* DbReady *)
    unfold db_ready.
    set (d1 := act (set_db_open d true) Daemon
                   [Log Info "Database ready." None]).
    destruct (@fold_start_open payload request response store
                (ready_once d1) (set_ready_once d1 []) eq_refl)
      as (J1 & J2 & J3 & J4 & J5 & J6 & J7).
    assert (Hr : reached Ready (trace d1)).
    { simpl. apply reached_app_r. repeat constructor. }
    assert (Hsock : sockets (fold_left (@start _ _ _ _) (ready_once d1)
                               (set_ready_once d1 [])) = sockets d).
    { rewrite (proj1 (sockets_fold_start _ _)). reflexivity. }
    split; rewrite ?J3, ?J5, ?J6, ?J7, ?Hsock.
    * intros _. apply reached_app_l, Hr.
    * apply preceded_app.
      -- simpl. apply preceded_plain; [exact I2|]. repeat constructor.
         discriminate.
      -- intros l1 e l2 _ _. apply reached_app_l, Hr.
    * simpl. intros H.
      destruct (listens d) as [|x l] eqn:El.
      -- destruct (ready_once d) as [|y r]; [contradiction|].
         apply reached_app_r. simpl. left. reflexivity.
      -- apply reached_app_l, reached_app_l, I3. discriminate.
    * apply preceded_plain; [|apply listens_not; discriminate].
      simpl. apply preceded_plain; [exact I4|]. repeat constructor.
      discriminate.
    * simpl. intros H. destruct (I5 H) as (a & E & Hin). exists a.
      split; [exact E|]. apply in_or_app. left. apply in_or_app. left.
      exact Hin.
    * apply preceded_plain; [|apply listens_not; discriminate].
      simpl. apply preceded_plain; [exact I6|]. repeat constructor.
      discriminate.
    * intros p c H. apply in_or_app. left. simpl. apply in_or_app. left.
      exact (I7 _ _ H).
  - (* Listened *)
    unfold listen_callback.
    destruct (listens d) as [|done rest] eqn:El.
    { split; auto. }
    assert (Hl : reached Listening (trace d)) by (apply I3; discriminate).
    destruct res as [err|a].
    + assert (Hp : forall m, (forall k, m <> Called k) ->
                Forall (fun e => milestone_of e <> Some m)
                (map (pair Daemon)
                   ([Log Error "error starting server" (Some err);
                     Emit (error_signal err)] ++
                    match done with
                    | Some k => [Done k (Some err) None]
                    | None => []
                    end))).
      { intros m Hm. destruct done; simpl;
          repeat (apply List.Forall_cons; [simpl; try discriminate|]);
          try apply List.Forall_nil;
          try (intros H; injection H as <-; exact (Hm _ eq_refl)). }
      split; simpl.
      * intros H. apply reached_app_l, I1, H.
      * apply preceded_plain; [exact I2|]. apply Hp. discriminate.
      * intros _. apply reached_app_l, Hl.
      * apply preceded_plain; [exact I4|]. apply Hp. discriminate.
      * intros H. destruct (I5 H) as (a & E & Hin). exists a.
        split; [exact E|]. apply in_or_app. left. exact Hin.
      * apply preceded_plain; [exact I6|]. apply Hp. discriminate.
      * intros p c H. apply in_or_app. left. exact (I7 _ _ H).
    + assert (Hp : forall m, m <> Started -> (forall k, m <> Called k) ->
                Forall (fun e => milestone_of e <> Some m)
                (map (pair Daemon)
                   ([Log Info "server started" None; Emit (started a)] ++
                    match done with
                    | Some k => [Done k None (Some a)]
                    | None => []
                    end))).
      { intros m Hs Hm. destruct done; simpl;
          repeat (apply List.Forall_cons; [simpl; try discriminate|]);
          try apply List.Forall_nil; try congruence;
          try (intros H; injection H as <-; exact (Hm _ eq_refl)). }
      split; simpl.
      * intros H. apply reached_app_l, I1, H.
      * apply preceded_plain; [exact I2|]. apply Hp; discriminate.
      * intros _. apply reached_app_l, Hl.
      * apply preceded_app; [exact I4|].
        intros l1 e l2 _ _. apply reached_app_l, Hl.
      * intros _. exists a. split; [reflexivity|].
        apply in_or_app. right. simpl. auto.
      * apply preceded_plain; [exact I6|]. apply Hp; discriminate.
      * intros p c H. apply in_or_app. left. exact (I7 _ _ H).
  - (* Accept *)
    destruct (accepting d) eqn:Ha; [|split; auto; rewrite Ha; discriminate].
    destruct (sockets d !! p) eqn:Hp; [split; auto|].
    destruct (I5 eq_refl) as (a & E & Hin).
    unfold _handler. split; simpl.
    + intros H. apply reached_app_l, I1, H.
    + apply preceded_plain; [exact I2|]. repeat constructor. discriminate.
    + intros H. apply reached_app_l, I3, H.
    + apply preceded_plain; [exact I4|]. repeat constructor. discriminate.
    + intros _. exists a. split; [exact E|]. apply in_or_app. left. exact Hin.
    + apply preceded_app; [exact I6|].
      intros l1 e l2 _ _. apply reached_app_l. eapply started_reached, Hin.
    + intros q c H. destruct (decide (p = q)) as [<-|Hne].
      * apply in_or_app. right. simpl. auto.
      * rewrite lookup_insert_ne in H by exact Hne.
        apply in_or_app. left. exact (I7 _ _ H).
Qed.

Lemma in_order_run (evs : list event) : forall d : daemon,
  in_order d -> in_order (run d evs).
Proof.
  induction evs as [|ev evs IH]; intros d I; [exact I|].
  change (run d (ev :: evs)) with (run (step d ev) evs).
  apply IH, in_order_step, I.
Qed.

Lemma reached_ready (l : list entry) :
  reached Ready l -> In (Daemon, Log Info "Database ready." None) l.
Proof.
  intros H. apply List.Exists_exists in H as (e & Hin & He).
  destruct e as [[| |] [lv text err| | | | | | |]]; simpl in He;
    try discriminate He.
  - destruct lv; try discriminate He. destruct err; [discriminate He|].
    destruct (String.eqb_spec text "Database ready."); [|discriminate He].
    subst. exact Hin.
  - destruct s; discriminate He.
  - destruct lv; try discriminate He. destruct err; [discriminate He|].
    destruct (String.eqb text "connection accepted"); discriminate He.
Qed.

Lemma reached_listening (l : list entry) :
  reached Listening l -> exists P h, In (Daemon, Listen P h) l.
Proof.
  intros H. apply List.Exists_exists in H as (e & Hin & He).
  destruct e as [[| |] [lv text err| | | | | | |]]; simpl in He;
    try discriminate He; eauto.
  - destruct lv; try discriminate He. destruct err; [discriminate He|].
    destruct (String.eqb text "Database ready."); discriminate He.
  - destruct s; discriminate He.
  - destruct lv; try discriminate He. destruct err; [discriminate He|].
    destruct (String.eqb text "connection accepted"); discriminate He.
Qed.

Lemma reached_started (l : list entry) :
  reached Started l -> exists a, In (Daemon, Emit (started a)) l.
Proof.
  intros H. apply List.Exists_exists in H as (e & Hin & He).
  destruct e as [[| |] [lv text err| | | | | | |]]; simpl in He;
    try discriminate He.
  - destruct lv; try discriminate He. destruct err; [discriminate He|].
    destruct (String.eqb text "Database ready."); discriminate He.
  - destruct s; try discriminate He. eauto.
  - destruct lv; try discriminate He. destruct err; [discriminate He|].
    destruct (String.eqb text "connection accepted"); discriminate He.
Qed.

(** In every run of a freshly constructed daemon, the server is asked to
    listen only after the store said it is ready, ['started'] is emitted
    only after the server was asked to listen, and a connection is
    accepted only after ['started'] was emitted. *)
Theorem service_begins_in_order (options : config) (s0 : store)
    (evs : list event) :
  let tr := trace (run (new_daemon options s0) evs) in
  (forall l1 l2 P h,
     tr = l1 ++ (Daemon, Listen P h) :: l2 ->
     In (Daemon, Log Info "Database ready." None) l1) /\
  (forall l1 l2 a,
     tr = l1 ++ (Daemon, Emit (started a)) :: l2 ->
     exists P h, In (Daemon, Listen P h) l1) /\
  (forall l1 l2 p,
     tr = l1 ++ (Conn p, Log Debug "connection accepted" None) :: l2 ->
     exists a, In (Daemon, Emit (started a)) l1).
Proof.
  intros tr.
  destruct (in_order_run evs (in_order_new options s0))
    as [_ I2 _ I4 _ I6 _].
  fold tr in I2, I4, I6. repeat split.
  - intros l1 l2 P h H. apply reached_ready. exact (I2 _ _ _ H eq_refl).
  - intros l1 l2 a H. apply reached_listening. exact (I4 _ _ _ H eq_refl).
  - intros l1 l2 p H. apply reached_started. exact (I6 _ _ _ H eq_refl).
Qed.

(** In every run of a freshly constructed daemon: while the daemon
    accepts connections, the address of its server is known and
    ['started'] has been emitted with that address; and every connection
    in its table was logged as accepted. *)
Theorem accepting_means_started (options : config) (s0 : store)
    (evs : list event) :
  let d := run (new_daemon options s0) evs in
  (accepting d = true ->
   exists a, server_address d = Some a /\
             In (Daemon, Emit (started a)) (trace d)) /\
  (forall p c, sockets d !! p = Some c ->
     In (Conn p, Log Debug "connection accepted" None) (trace d)).
Proof.
  intros d.
  destruct (in_order_run evs (in_order_new options s0))
    as [_ _ _ _ I5 _ I7].
  split; assumption.
Qed.

(** *** What a connection keeps *)

(** [c'] is a later state of the connection [c]. *)
Record grows (c c' : conn) : Prop := {
  gr_written : exists w, written c' = written c ++ w;
  gr_received : exists r, received c' = received c ++ r;
  gr_handled : exists h, handled c' = handled c ++ h;
  gr_ended : ended c = true -> ended c' = true;
  gr_destroyed : destroyed c = true -> destroyed c' = true;
  gr_armed : handler_armed c = false -> handler_armed c' = false
}.

Lemma grows_refl (c : conn) : grows c c.
Proof. split; auto; exists []; rewrite app_nil_r; reflexivity. Qed.

Lemma grows_trans (a b c : conn) : grows a b -> grows b c -> grows a c.
Proof.
  intros [[w1 W1] [r1 R1] [h1 H1] E1 D1 A1] [[w2 W2] [r2 R2] [h2 H2] E2 D2 A2].
  split; auto.
  - exists (w1 ++ w2). rewrite W2, W1, app_assoc. reflexivity.
  - exists (r1 ++ r2). rewrite R2, R1, app_assoc. reflexivity.
  - exists (h1 ++ h2). rewrite H2, H1, app_assoc. reflexivity.
Qed.

Ltac grow :=
  split; simpl; auto;
  try (exists []; rewrite app_nil_r; reflexivity);
  try (eexists; reflexivity); try congruence.

Lemma emits_error_grows (c : conn) (e : error) :
  grows c (fst (request_handler_emits_error c e)).
Proof.
  unfold request_handler_emits_error, request_handler_once_error.
  destruct (handler_armed c) eqn:Ha; [|apply grows_refl].
  destruct (critical e); grow.
Qed.

Lemma move_grows (c c' : conn) :
  conn_moves decode handle encode c c' -> grows c c'.
Proof.
  intros Hm. destruct Hm.
  - apply grows_refl.
  - grow.
  - unfold receive. destruct (destroyed c) eqn:Hd; [apply grows_refl|]. grow.
  - unfold decode_step. destruct (inbound c); [apply grows_refl|].
    destruct (decode p); grow.
  - unfold handle_step. destruct (decoded c); [apply grows_refl|].
    destruct (handle s r) as [s' h].
    match goal with
    | |- context [raised h] =>
        destruct (raised h) as [e|]
    end.
    + match goal with
      | |- context [request_handler_emits_error ?c0 e] =>
          pose proof (emits_error_grows c0 e) as Hg;
          destruct (request_handler_emits_error c0 e) as [c'' acts]
      end.
      simpl in *. eapply grows_trans; [|exact Hg]. grow.
    + grow.
  - unfold encode_step. destruct (answered c); [apply grows_refl|]. grow.
  - unfold write_step. destruct (encoded c); [apply grows_refl|].
    destruct (ended c || destroyed c); [apply grows_refl|]. grow.
Qed.

(** Whatever happens to the daemon, a connection stays in its table; what
    was written to its socket, received on it and handled for it is only
    ever extended at the end; and a socket that was ended or destroyed,
    or an error listener that has run, stays so. *)
Theorem connection_only_grows (d : daemon) (evs : list event) (p : peer)
    (c : conn) :
  sockets d !! p = Some c ->
  exists c', sockets (run d evs) !! p = Some c' /\ grows c c'.
Proof.
  intros H.
  apply (@conn_persists payload request response store decode handle encode
           (grows c)) with (c := c); [|exact H | apply grows_refl].
  intros c1 c2 Hm Hg. exact (grows_trans Hg (move_grows Hm)).
Qed.

(** The socket was destroyed; [w] was written to it and [r] received. *)
Definition cut_off (w r : list payload) (c : conn) : Prop :=
  destroyed c = true /\ written c = w /\ received c = r.

Lemma cut_off_moves (w r : list payload) (c c' : conn) :
  conn_moves decode handle encode c c' -> cut_off w r c -> cut_off w r c'.
Proof.
  intros Hm (Hd & Hw & Hr). unfold cut_off.
  pose proof (move_grows Hm) as [_ _ _ _ D _]. split; [exact (D Hd)|].
  destruct Hm; simpl; auto.
  - unfold receive. rewrite Hd. auto.
  - unfold decode_step. destruct (inbound c); [auto|].
    destruct (decode p); simpl; auto.
  - unfold handle_step. destruct (decoded c); [auto|].
    destruct (handle s r0) as [s' h]. destruct (raised h) as [e|]; [|auto].
    unfold request_handler_emits_error, request_handler_once_error. simpl.
    destruct (handler_armed c); [destruct (critical e)|]; simpl; auto.
  - unfold encode_step. destruct (answered c); simpl; auto.
  - unfold write_step. destruct (encoded c); [auto|].
    rewrite Hd, orb_true_r. auto.
Qed.

(** After [stop], whatever happens next, nothing more is written to a
    socket that was open when [stop] was called and nothing more is
    received on it: the socket is destroyed and stays so. *)
Theorem stop_cuts_connections_off (d : daemon) (k : option callback)
    (evs : list event) (p : peer) (c : conn) :
  sockets d !! p = Some c ->
  exists c', sockets (run (stop d k) evs) !! p = Some c' /\
             destroyed c' = true /\
             written c' = written c /\ received c' = received c.
Proof.
  intros H.
  apply (@conn_persists payload request response store decode handle encode
           (cut_off (written c) (received c)))
    with (c := socket_destroy c).
  - intros c1 c2. apply cut_off_moves.
  - unfold stop. simpl. rewrite lookup_fmap, H. reflexivity.
  - repeat split.
Qed.

(** *** One connection does not disturb the others *)

Lemma on_socket_local (d : daemon) (p : peer)
    (f : conn -> conn * list action) :
  (forall q, q <> p -> sockets (on_socket d p f) !! q = sockets d !! q) /\
  accepting (on_socket d p f) = accepting d /\
  server_address (on_socket d p f) = server_address d /\
  listens (on_socket d p f) = listens d /\
  ready_once (on_socket d p f) = ready_once d /\
  db_open (on_socket d p f) = db_open d /\
  stops (on_socket d p f) = stops d /\
  clock (on_socket d p f) = clock d /\
  db (on_socket d p f) = db d /\
  exists acts, trace (on_socket d p f) = trace d ++ map (pair (Conn p)) acts.
Proof.
  unfold on_socket. destruct (sockets d !! p) as [c|].
  - destruct (f c) as [c' acts]. simpl. repeat split; eauto.
    intros q Hq. apply lookup_insert_ne. congruence.
  - repeat split. exists []. simpl. rewrite app_nil_r. reflexivity.
Qed.

(** An event of one connection (a frame received, a step of one of its
    stages, an error or the close of its socket) leaves every other
    connection as it was, and also the listener, the pending calls of
    [start] and [stop] and the clock; only the request handler can change
    the store; and whatever is logged is logged under that connection. *)
Theorem connection_events_are_local (ev : event) (p : peer) (d : daemon) :
  conn_event ev = Some p ->
  let d' := step d ev in
  (forall q, q <> p -> sockets d' !! q = sockets d !! q) /\
  accepting d' = accepting d /\ server_address d' = server_address d /\
  listens d' = listens d /\ ready_once d' = ready_once d /\
  db_open d' = db_open d /\ stops d' = stops d /\ clock d' = clock d /\
  (ev <> HandleStep p -> db d' = db d) /\
  exists acts, trace d' = trace d ++ map (pair (Conn p)) acts.
Proof.
  intros Hev d'. unfold d'. clear d'.
  destruct ev; try discriminate; injection Hev as ->; cbn [Server.step];
    try (match goal with
         | |- context [on_socket d p ?f] =>
             destruct (on_socket_local d p f)
               as (L1 & L2 & L3 & L4 & L5 & L6 & L7 & L8 & L9 & L10)
         end; repeat split; auto; fail).
  unfold on_handle. destruct (sockets d !! p) as [c|].
  - destruct (handle_step handle (db d) c) as [[s' c'] acts]. simpl.
    repeat split; eauto; try congruence.
    intros q Hq. apply lookup_insert_ne. congruence.
  - repeat split. exists []. simpl. rewrite app_nil_r. reflexivity.
Qed.

(** *** The store *)

Definition handles {A : Type} (ev : Server.event A) : bool :=
  match ev with
  | HandleStep _ => true
  | _ => false
  end.

Lemma step_keeps_store (ev : event) (d : daemon) :
  handles ev = false -> db (step d ev) = db d.
Proof.
  destruct ev; try discriminate; intros _; cbn [Server.step];
    try reflexivity;
    try (match goal with
         | |- context [on_socket d ?q ?f] =>
             exact (proj1 (proj2 (proj2 (proj2 (proj2 (proj2 (proj2 (proj2
                     (proj2 (on_socket_local d q f))))))))))
         end).
  - unfold start. destruct (negb (db_open d)); reflexivity.
  - unfold db_ready.
    rewrite (proj2 (proj2 (proj2 (sockets_fold_start _ _)))). reflexivity.
  - unfold listen_callback. destruct (listens d); [reflexivity|].
    destruct res; reflexivity.
  - destruct (accepting d); [|reflexivity].
    destruct (sockets d !! p); reflexivity.
  - unfold destroy_callback. destruct (stops d !! n); [|reflexivity].
    destruct (stage s); reflexivity.
  - unfold close_callback. destruct (stops d !! n); [|reflexivity].
    destruct (stage s); try reflexivity.
    destruct (cb_call (wrapper s)). destruct err; reflexivity.
  - unfold elapse. destruct (fire_timers (clock d + ms) 0 (stops d)).
    reflexivity.
Qed.

(** The contents of the store change only when the request handler of
    some connection handles a request: starting, accepting, decoding
    (malformed frames included), encoding, writing, socket errors, timers
    and the whole of [stop] leave them as they are; and a request that is
    handled changes them as the handler says. *)
Theorem only_the_handler_touches_the_store (d : daemon) (evs : list event) :
  Forall (fun ev => handles ev = false) evs ->
  db (run d evs) = db d /\
  forall p c r rest,
    sockets (run d evs) !! p = Some c -> decoded c = r :: rest ->
    db (step (run d evs) (HandleStep p)) = fst (handle (db d) r).
Proof.
  intros H.
  assert (Hdb : db (run d evs) = db d).
  { revert d. induction H as [|ev evs Hev _ IH]; intros d; [reflexivity|].
    change (run d (ev :: evs)) with (run (step d ev) evs).
    rewrite IH. apply step_keeps_store, Hev. }
  split; [exact Hdb|].
  intros p c r rest Hc Hd. cbn [Server.step]. unfold on_handle.
  rewrite Hc. unfold handle_step. rewrite Hd, Hdb.
  destruct (handle (db d) r) as [s' h]. simpl.
  destruct (raised h) as [e|]; [|reflexivity].
  match goal with
  | |- context [request_handler_emits_error ?c0 e] =>
      destruct (request_handler_emits_error c0 e) as [c'' acts]
  end. reflexivity.
Qed.

End Pipeline.

End DaemonProps.

(** ** More of the daemon at work *)

Module MoreExamples.
Import Server Script ServerProps DaemonProps Examples.

(** A validator that accepts every configuration. *)
Definition accept_all (config : Construction.object) : Construction.value :=
  Construction.VUndefined.

(** Options with a database path, an explicitly undefined port and one
    bucket type. *)
Definition path_options : Construction.object :=
  <["db" := Construction.VString "/var/limitd/database"]>
  (<["port" := Construction.VUndefined]>
  (<["buckets" := Construction.VObject
                    (<["ip" := Construction.VObject
                                 (<["size" := Construction.VNumber 10]> ∅)]> ∅)]>
   ∅)).

(** Options whose [db] is an object with a [types] property of its own. *)
Definition object_options : Construction.object :=
  <["db" := Construction.VObject
              (<["inMemory" := Construction.VBool true]>
              (<["types" := Construction.VString "mine"]> ∅))]>
  (<["buckets" := Construction.VString "theirs"]> ∅).

Definition no_instance : Construction.instance :=
  {| Construction._config := ∅; Construction.dbConfig := ∅;
     Construction.log_level := Construction.VUndefined;
     Construction._metrics := Construction.VUndefined |}.

Definition path_instance : Construction.instance :=
  Eval vm_compute in
    match Construction.LimitdServer accept_all path_options with
    | inr i => i
    | inl _ => no_instance
    end.

Definition object_instance : Construction.instance :=
  Eval vm_compute in
    match Construction.LimitdServer accept_all object_options with
    | inr i => i
    | inl _ => no_instance
    end.

Example constructor_rejects_empty_db :
  Construction.LimitdServer accept_all
    (<["db" := Construction.VString ""]> path_options) =
  inl (Construction.TypeError Construction.db_is_required) /\
  Construction.LimitdServer accept_all (delete "db" path_options) =
  inl (Construction.TypeError Construction.db_is_required).
Proof. split; vm_compute; reflexivity. Qed.

Example undefined_port_erases_default :
  Construction._config path_instance !! "port" = Some Construction.VUndefined /\
  Construction._config path_instance !! "hostname" =
    Some (Construction.VString "0.0.0.0").
Proof. split; vm_compute; reflexivity. Qed.

Example types_of_db_object_win :
  Construction.dbConfig object_instance !! "types" =
    Some (Construction.VString "mine") /\
  Construction.dbConfig object_instance !! "inMemory" =
    Some (Construction.VBool true) /\
  Construction.dbConfig object_instance !! "path" = None.
Proof. repeat split; vm_compute; reflexivity. Qed.

Lemma options_override_defaults_witness :
  Construction.LimitdServer accept_all path_options = inr path_instance /\
  (forall k v, path_options !! k = Some v ->
               Construction._config path_instance !! k = Some v) /\
  (forall k, path_options !! k = None ->
             Construction._config path_instance !! k =
             Construction.defaults !! k).
Proof.
  assert (H : Construction.LimitdServer accept_all path_options =
              inr path_instance) by (vm_compute; reflexivity).
  split; [exact H|].
  pose proof (@ConstructionProps.options_override_defaults accept_all
                path_options path_instance H) as (H1 & H2 & _).
  split; assumption.
Defined.

Lemma store_configuration_witness :
  Construction.LimitdServer accept_all path_options = inr path_instance /\
  match Construction.get path_options "db" with
  | Construction.VString s =>
      Construction.dbConfig path_instance =
      <["path" := Construction.VString s]>
        {[ "types" := Construction.get path_options "buckets" ]}
  | Construction.VObject o =>
      forall k,
        Construction.dbConfig path_instance !! k =
        match o !! k with
        | Some v => Some v
        | None => if String.eqb k "types"
                  then Some (Construction.get path_options "buckets")
                  else None
        end
  | _ => Construction.dbConfig path_instance =
         {[ "types" := Construction.get path_options "buckets" ]}
  end.
Proof.
  assert (H : Construction.LimitdServer accept_all path_options =
              inr path_instance) by (vm_compute; reflexivity).
  split; [exact H|].
  exact (@ConstructionProps.store_configuration accept_all
           path_options path_instance H).
Defined.

(** The client of [three_requests] sends one more request. *)
Definition one_more : list (event frame) :=
  [Receive client (Ask ping); DecodeStep client; HandleStep client;
   EncodeStep client; WriteStep client].

Lemma connection_only_grows_witness :
  sockets (go three_requests) !! client = Some three_done /\
  exists c',
    sockets (run decode handle encode (go three_requests) one_more) !! client
      = Some c' /\
    grows three_done c'.
Proof.
  assert (H : sockets (go three_requests) !! client = Some three_done)
    by (vm_compute; reflexivity).
  split; [exact H|].
  exact (@connection_only_grows frame req (bool * nat) nat
           decode handle encode (go three_requests) one_more client
           three_done H).
Defined.

Lemma stop_cuts_connections_off_witness :
  sockets (go three_requests) !! client = Some three_done /\
  exists c',
    sockets (run decode handle encode (stop (go three_requests) (Some 7))
               one_more) !! client = Some c' /\
    destroyed c' = true /\
    written c' = written three_done /\ received c' = received three_done.
Proof.
  assert (H : sockets (go three_requests) !! client = Some three_done)
    by (vm_compute; reflexivity).
  split; [exact H|].
  exact (@stop_cuts_connections_off frame req (bool * nat) nat
           decode handle encode (go three_requests) (Some 7) one_more client
           three_done H).
Defined.

Lemma connection_events_are_local_witness :
  conn_event (DecodeStep (payload := frame) client) = Some client /\
  forall q, q <> client ->
    sockets (step decode handle encode (go garbage_arrived)
               (DecodeStep client)) !! q =
    sockets (go garbage_arrived) !! q.
Proof.
  split; [reflexivity|].
  exact (proj1 (@connection_events_are_local frame req (bool * nat) nat
                  decode handle encode (DecodeStep client) client
                  (go garbage_arrived) eq_refl)).
Defined.

(** Two calls of [start] with the same callback, one before the store is
    ready and one after; the first listen fails. *)
Example two_starts_two_answers :
  let evs := [Start (Some 1); DbReady; Start (Some 1);
              Listened (inl (Failure "EADDRINUSE")); Listened (inr bound)] in
  starts 1 evs = 2 /\ calls 1 (trace (go evs)) = 2 /\ pending 1 (go evs) = 0.
Proof. vm_compute. repeat split; reflexivity. Qed.

(** A malformed frame, a socket error and a shutdown that times out: the
    three tokens of the store are still there. *)
Definition no_request_handled : list (event frame) :=
  serving ++
  [Receive client Garbage; DecodeStep client; SocketError client (Failure "ECONNRESET");
   Stop None; Elapse 5000; ServerDestroyed 0 None; DbClosed 0 None].

Lemma only_the_handler_touches_the_store_witness :
  Forall (fun ev : event frame => handles ev = false) no_request_handled /\
  db (run decode handle encode daemon0 no_request_handled) = db daemon0.
Proof.
  assert (H : Forall (fun ev : event frame => handles ev = false)
                     no_request_handled) by (repeat constructor).
  split; [exact H|].
  exact (proj1 (@only_the_handler_touches_the_store frame req (bool * nat) nat
                  decode handle encode daemon0 no_request_handled H)).
Defined.

End MoreExamples.
